(** * cashflower/graph.py: dependency analysis of model variables

    A shallow embedding of [src/cashflower/graph.py] and the properties of
    its four operations: the argument validator
    ([raise_error_if_incorrect_argument]), the call extractor ([get_calls]
    with [CallVisitor]), the direction classifier ([get_calc_direction] with
    [CalcDirectionVisitor]) and the breadth-first predecessor closure
    ([get_predecessors]). *)

From stdpp Require Import gmap strings list fin_maps.

Local Open Scope string_scope.
Local Open Scope list_scope.
Set Warnings "-register-all".

(** ** Python values the code inspects *)

(** The value carried by an [ast.Constant] node.  [bool] is a subclass of
    [int] in Python, which [isinstance_int] below reproduces. *)
Inductive constant :=
| CInt (n : Z)
| CBool (b : bool)
| CFloat (literal : string)
| CStr (s : string)
| CBytes (s : string)
| CNone
| CEllipsis.

(** [isinstance(value, int)]. *)
Definition isinstance_int (value : constant) : bool :=
  match value with
  | CInt _ | CBool _ => true
  | _ => false
  end.

(** The binary operator classes of the [ast] module. *)
Inductive operator :=
| Add | Sub | Mult | MatMult | Div | Mod | Pow
| LShift | RShift | BitOr | BitXor | BitAnd | FloorDiv.

Definition isinstance_Add (op : operator) : bool :=
  match op with Add => true | _ => false end.

Definition isinstance_Sub (op : operator) : bool :=
  match op with Sub => true | _ => false end.

(** The syntax tree that [ast.parse] returns.  The node classes whose fields
    the code reads have a constructor of their own; a node of any other class
    ([Module], [FunctionDef], [Return], [If], [Compare], [Attribute],
    [keyword], ...) is [Node cls children], with its child nodes in the
    order [ast.iter_fields] yields them, which is all that
    [ast.NodeVisitor.generic_visit] looks at. *)
Inductive AST :=
| Name (id : string)
| Constant (value : constant)
| BinOp (left : AST) (op : operator) (right : AST)
| Call (func : AST) (args : list AST) (keywords : list AST)
| Node (cls : string) (children : list AST).

(** Induction over the tree with the hypothesis available for every element
    of the child lists. *)
Section AST_induction.
Variable P : AST → Prop.
Hypothesis HName : ∀ id, P (Name id).
Hypothesis HConstant : ∀ value, P (Constant value).
Hypothesis HBinOp : ∀ lhs op rhs, P lhs → P rhs → P (BinOp lhs op rhs).
Hypothesis HCall : ∀ func args keywords,
    P func → Forall P args → Forall P keywords → P (Call func args keywords).
Hypothesis HNode : ∀ cls children, Forall P children → P (Node cls children).

Fixpoint AST_nested_ind (node : AST) : P node :=
    let fix all (l : list AST) : Forall P l :=
      match l with
      | [] => Forall_nil_2 P
      | x :: l' => Forall_cons_2 P x l' (AST_nested_ind x) (all l')
      end in
    match node with
    | Name id => HName id
    | Constant value => HConstant value
    | BinOp lhs op rhs =>
        HBinOp lhs op rhs (AST_nested_ind lhs) (AST_nested_ind rhs)
    | Call func args keywords =>
        HCall func args keywords (AST_nested_ind func) (all args) (all keywords)
    | Node cls children => HNode cls children (all children)
    end.
End AST_induction.

(** ** Exceptions *)

Inductive exception :=
| CashflowModelError (msg : string)
| IndexError
| AttributeError
| NetworkXError.

Inductive result (A : Type) :=
| Ok (a : A)
| Raise (e : exception).
Arguments Ok {A} a.
Arguments Raise {A} e.

Definition bind {A B} (r : result A) (k : A → result B) : result B :=
  match r with
  | Ok a => k a
  | Raise e => Raise e
  end.

Notation "x ←! r ; k" := (bind r (λ x, k))
  (at level 100, r at next level, right associativity, only parsing).

(** A loop body run over a list, stopping at the first exception. *)
Fixpoint for_each {A S} (body : S → A → result S) (l : list A) (s : S) : result S :=
  match l with
  | [] => Ok s
  | x :: l' => s' ←! body s x; for_each body l' s'
  end.

(** ** raise_error_if_incorrect_argument *)

Definition newline : string := String (Ascii.ascii_of_nat 10) EmptyString.

(** The first message, an f-string over [node.func.id]. *)
Definition arity_msg (id : string) : string :=
  "Model variable must have one argument. Please review the call of '" +:+ id +:+ "'.".

(** The second message. *)
Definition shape_msg (id : string) : string :=
  newline +:+ "Please review '" +:+ id
  +:+ "'. The argument of a model variable can be only:" +:+ newline
  +:+ "- t," +:+ newline
  +:+ "- t plus/minus integer (e.g. t+1 or t-12)," +:+ newline
  +:+ "- an integer (e.g. 0 or 12).".

(** [isinstance(x, ast.Name) and x.id == "t"]. *)
Definition is_Name_t (x : AST) : bool :=
  match x with
  | Name id => bool_decide (id = "t")
  | _ => false
  end.

(** [isinstance(x, ast.Constant) and isinstance(x.value, int)]. *)
Definition is_Constant_int (x : AST) : bool :=
  match x with
  | Constant value => isinstance_int value
  | _ => false
  end.

(** The four [if] statements that follow the arity check, in order: each
    either raises or falls through to the next. *)
Definition check_argument (msg : string) (arg : AST) : result unit :=
  _ ←! match arg with
       | Name id => if negb (bool_decide (id = "t")) then Raise (CashflowModelError msg) else Ok tt
       | _ => Ok tt
       end;
  _ ←! match arg with
       | Constant value => if negb (isinstance_int value) then Raise (CashflowModelError msg) else Ok tt
       | _ => Ok tt
       end;
  _ ←! match arg with
       | BinOp lhs op rhs =>
           let check1 := is_Name_t lhs in
           let check2 := isinstance_Add op || isinstance_Sub op in
           let check3 := is_Constant_int rhs in
           if negb (check1 && check2 && check3) then Raise (CashflowModelError msg) else Ok tt
       | _ => Ok tt
       end;
  match arg with
  | Name _ | Constant _ | BinOp _ _ _ => Ok tt
  | _ => Raise (CashflowModelError msg)
  end.

(** [node] is the call node.  Reading [node.func.id] of a callee that is not
    a [Name], or [node.args] of a node that is not a call, is Python's
    [AttributeError]; the one caller passes calls whose callee is a [Name]. *)
Definition raise_error_if_incorrect_argument (node : AST) : result unit :=
  match node with
  | Call func args _ =>
      if negb (length args =? 1)%nat then
        match func with
        | Name id => Raise (CashflowModelError (arity_msg id))
        | _ => Raise AttributeError
        end
      else
        match args with
        | arg :: _ =>
            match func with
            | Name id => check_argument (shape_msg id) arg
            | _ => Raise AttributeError
            end
        | [] => Raise IndexError
        end
  | _ => Raise AttributeError
  end.

(** ** ast.NodeVisitor *)

(** [visit] dispatches a [Call] node to the subclass's [visit_Call] and every
    other node to [generic_visit], which visits the child nodes in field
    order.  Neither subclass calls [generic_visit] from [visit_Call], so the
    traversal does not continue below a call node. *)
Section NodeVisitor.
Context {S : Type}.
Variable visit_Call : S → AST → result S.

Fixpoint visit (node : AST) (self : S) {struct node} : result S :=
    match node with
    | Call _ _ _ => visit_Call self node
    | Name _ => Ok self
    | Constant _ => Ok self
    | BinOp lhs _ rhs =>
        self' ←! visit lhs self; visit rhs self'
    | Node _ children =>
        (fix generic_visit (l : list AST) (self : S) : result S :=
           match l with
           | [] => Ok self
           | child :: l' => self' ←! visit child self; generic_visit l' self'
           end) children self
    end.
End NodeVisitor.

(** The call nodes that [visit] hands to [visit_Call], in order. *)
Fixpoint dispatched_calls (node : AST) : list AST :=
  match node with
  | Call _ _ _ => [node]
  | Name _ => []
  | Constant _ => []
  | BinOp lhs _ rhs => dispatched_calls lhs ++ dispatched_calls rhs
  | Node _ children =>
      (fix go (l : list AST) : list AST :=
         match l with
         | [] => []
         | child :: l' => dispatched_calls child ++ go l'
         end) children
  end.

(** Every call node of the tree, pre-order, those below another call
    included. *)
Fixpoint all_calls (node : AST) : list AST :=
  let fix go (l : list AST) : list AST :=
    match l with
    | [] => []
    | child :: l' => all_calls child ++ go l'
    end in
  match node with
  | Call func args keywords => node :: all_calls func ++ go args ++ go keywords
  | Name _ => []
  | Constant _ => []
  | BinOp lhs _ rhs => all_calls lhs ++ all_calls rhs
  | Node _ children => go children
  end.

(** ** Model variables *)

(** [func] stands for [ast.parse(inspect.getsource(variable.func))], the
    tree of the variable's formula; [calc_direction] is the string the
    classifier writes. *)
Record Variable_ := {
  name : string;
  func : AST;
  calc_direction : string;
}.

Definition set_calc_direction (variable : Variable_) (direction : string) : Variable_ :=
  {| name := name variable; func := func variable; calc_direction := direction |}.

(** ** CallVisitor and get_calls *)

Module CallVisitor.
(** The visitor's state is [self.calls]; [self.variable_names] never
    changes after [__init__]. *)
Definition init : list string := [].

Definition visit_Call (variable_names : list string) (calls : list string)
      (node : AST) : result (list string) :=
    match node with
    | Call (Name id) _ _ =>
        if bool_decide (id ∈ variable_names) then
          _ ←! raise_error_if_incorrect_argument node;
          Ok (calls ++ [id])
        else Ok calls
    | Call _ _ _ => Ok calls
    | _ => Raise AttributeError
    end.

Definition visit (variable_names : list string) : AST → list string → result (list string) :=
    visit (visit_Call variable_names).
End CallVisitor.

(** Modelled from the spec: [get_object_by_name] of [cashflower/utils.py],
    a module other than [graph.py].  The name-lookup collaborator
    "resolves a variable name string to its Variable object"; a name that no
    object has gives [None]. *)
Definition get_object_by_name (objects : list Variable_) (name_ : string) : option Variable_ :=
  list_find (λ object, name object = name_) objects ≫= (λ found, Some found.2).

Definition get_calls (variable : Variable_) (variables : list Variable_)
    : result (list (option Variable_)) :=
  let variable_names := name <$> variables in
  call_names ←! CallVisitor.visit variable_names (func variable) CallVisitor.init;
  Ok ((get_object_by_name variables) <$>
        filter (λ call_name, call_name ≠ name variable) call_names).

(** ** CalcDirectionVisitor and get_calc_direction *)

Module CalcDirectionVisitor.
(** The visitor's state is [self.calc_direction]. *)
Definition init : string := "irrelevant".

Definition visit_Call (variable_names : list string) (calc_direction : string)
      (node : AST) : result string :=
    match node with
    | Call (Name id) args _ =>
        if bool_decide (id ∈ variable_names) then
          match args with
          | [] => Raise IndexError
          | arg :: _ =>
              match arg with
              | BinOp lhs op rhs =>
                  let check1 := is_Name_t lhs in
                  let check2 := isinstance_Add op in
                  let check3 := isinstance_Sub op in
                  let calc_direction :=
                    if check1 && check2 then "backward" else calc_direction in
                  let calc_direction :=
                    if check1 && check3 then "forward" else calc_direction in
                  Ok calc_direction
              | _ => Ok calc_direction
              end
          end
        else Ok calc_direction
    | Call _ _ _ => Ok calc_direction
    | _ => Raise AttributeError
    end.

Definition visit (variable_names : list string) : AST → string → result string :=
    visit (visit_Call variable_names).
End CalcDirectionVisitor.

(** The [for] loop of [get_calc_direction]: the visitor, hence its
    [calc_direction], is one object for the whole list.  The loop returns the
    variables as the assignments leave them, or the exception that ended it;
    [classify_writes] below also keeps what was written before an
    exception. *)
Fixpoint classify (variable_names : list string) (calc_direction : string)
    (variables : list Variable_) : result (list Variable_) :=
  match variables with
  | [] => Ok []
  | variable :: rest =>
      calc_direction' ←!
        CalcDirectionVisitor.visit variable_names (func variable) calc_direction;
      rest' ←! classify variable_names calc_direction' rest;
      Ok (set_calc_direction variable calc_direction' :: rest')
  end.

Definition get_calc_direction (variables : list Variable_) : result (list Variable_) :=
  let variable_names := name <$> variables in
  classify variable_names CalcDirectionVisitor.init variables.

(** The same loop with every write kept: line 19 writes [calc_direction] on
    a member as soon as its formula has been traversed, so when the
    traversal of a later formula raises, the members before it have been
    written and the others have not.  The result is the variables as the
    call leaves them and the exception that ended it, if any. *)
Fixpoint classify_writes (variable_names : list string) (calc_direction : string)
    (variables : list Variable_) : list Variable_ * option exception :=
  match variables with
  | [] => ([], None)
  | variable :: rest =>
      match CalcDirectionVisitor.visit variable_names (func variable) calc_direction with
      | Raise e => (variable :: rest, Some e)
      | Ok calc_direction' =>
          let '(rest', outcome) := classify_writes variable_names calc_direction' rest in
          (set_calc_direction variable calc_direction' :: rest', outcome)
      end
  end.

Definition get_calc_direction_writes (variables : list Variable_)
    : list Variable_ * option exception :=
  let variable_names := name <$> variables in
  classify_writes variable_names CalcDirectionVisitor.init variables.

(** ** get_predecessors *)

Section get_predecessors.
Context `{Countable vertex}.

(** The graph as [get_predecessors] reads it: networkx keeps, for every
    node of a [DiGraph], its predecessors in iteration order. *)
Abbreviation DiGraph := (gmap vertex (list vertex)).

(** [DG.predecessors(node)], which raises for a node that is not in the
    graph. *)
Definition predecessors (DG : DiGraph) (node : vertex) : result (list vertex) :=
    match DG !! node with
    | Some children => Ok children
    | None => Raise NetworkXError
    end.

(** The body of the [for] loop on the pair of [queue] and [visited];
    [queue.put] adds at the back. *)
Definition visit_child (state : list vertex * list vertex) (child : vertex)
      : list vertex * list vertex :=
    let '(queue, visited) := state in
    if bool_decide (child ∈ visited) then (queue, visited)
    else (queue ++ [child], visited ++ [child]).

(** The [while] loop; [queue.get] takes from the front.  [fuel] bounds the
    number of iterations, and [None] is a run that needs more. *)
Fixpoint while_loop (fuel : nat) (DG : DiGraph) (queue visited : list vertex)
      {struct fuel} : option (result (list vertex)) :=
    match queue with
    | [] => Some (Ok visited)
    | node :: queue =>
        match fuel with
        | O => None
        | S fuel =>
            match predecessors DG node with
            | Raise e => Some (Raise e)
            | Ok children =>
                let '(queue, visited) := foldl visit_child (queue, visited) children in
                while_loop fuel DG queue visited
            end
        end
    end.

Definition get_predecessors (fuel : nat) (node : vertex) (DG : DiGraph)
      : option (result (list vertex)) :=
    while_loop fuel DG [node] [node].

(** [c] is reached from [start] along edges taken backwards. *)
Inductive ancestor (DG : DiGraph) (start : vertex) : vertex → Prop :=
  | ancestor_start : ancestor DG start start
  | ancestor_step x children c :
      ancestor DG start x → DG !! x = Some children → c ∈ children →
      ancestor DG start c.

(** Every predecessor is a node of the graph, as in a networkx graph. *)
Definition well_formed (DG : DiGraph) : Prop :=
    map_Forall (λ _ children, Forall (λ c, is_Some (DG !! c)) children) DG.

#[global] Instance well_formed_dec (DG : DiGraph) : Decision (well_formed DG).
Proof. unfold well_formed. apply _. Defined.

(** What holds between two iterations: [visited] is the nodes already
    taken from the queue followed by the queue. *)
Record loop_invariant (DG : DiGraph) (start : vertex) (processed queue : list vertex) : Prop := {
    inv_NoDup : NoDup (processed ++ queue);
    inv_start : start ∈ processed ++ queue;
    inv_sound : ∀ x, x ∈ processed ++ queue → ancestor DG start x;
    inv_in_graph : ∀ x, x ∈ processed → is_Some (DG !! x);
    inv_closed : ∀ x children c,
      x ∈ processed → DG !! x = Some children → c ∈ children → c ∈ processed ++ queue;
  }.

(** The graphs have the same edges if every node has the same predecessors
    in both, in whatever order. *)
Definition same_edges (DG DG' : DiGraph) : Prop :=
    ∀ x c, (∃ children, DG !! x = Some children ∧ c ∈ children)
           ↔ (∃ children, DG' !! x = Some children ∧ c ∈ children).
End get_predecessors.

(** [0 → 1 → 2 → 0] and [3 → 1], each node mapped to its predecessors. *)
Definition cyclic_graph : gmap nat (list nat) :=
  <[0 := [2]]> (<[1 := [0; 3]]> (<[2 := [1]]> (<[3 := []]> ∅))).

(** ** Formulas used as examples *)

(** Builders for the node classes that have no constructor of their own,
    children in field order. *)
Definition Module_ (body : list AST) : AST := Node "Module" body.
Definition arg_ (_ : string) : AST := Node "arg" [].
Definition FunctionDef (params : list string) (body decorator_list : list AST) : AST :=
  Node "FunctionDef" (Node "arguments" (arg_ <$> params) :: body ++ decorator_list).
Definition Return (value : AST) : AST := Node "Return" [value].
Definition Assign (target value : AST) : AST := Node "Assign" [target; value].
Definition If (test : AST) (body orelse : list AST) : AST := Node "If" (test :: body ++ orelse).
Definition Compare (lhs : AST) (op : string) (rhs : AST) : AST :=
  Node "Compare" [lhs; Node op []; rhs].
Definition Attribute (value : AST) (attr : string) : AST := Node "Attribute" [value].
Definition int_ (n : Z) : AST := Constant (CInt n).
Definition t_ : AST := Name "t".
Definition call1 (id : string) (arg : AST) : AST := Call (Name id) [arg] [].
Definition assign_ (id : string) : AST := Call (Name "assign") [Name id] [].
Definition variable_ (id : string) (formula : AST) : Variable_ :=
  {| name := id; func := formula; calc_direction := "irrelevant" |}.

(** [tutorials/life_insurance/endowment/model.py]. *)
Module endowment.
Definition _survival_rate : AST :=
    Module_ [FunctionDef ["t"]
      [If (Compare t_ "Eq" (int_ 0))
          [Return (BinOp (int_ 1) Sub (Name "DEATH_PROB"))]
          [Return (BinOp (call1 "survival_rate" (BinOp t_ Sub (int_ 1))) Mult
                         (BinOp (int_ 1) Sub (Name "DEATH_PROB")))]]
      [assign_ "survival_rate"]].

Definition main_get (key : string) : AST :=
    Call (Attribute (Name "main") "get") [Constant (CStr key)] [].

Definition _expected_benefit : AST :=
    Module_ [FunctionDef ["t"]
      [Assign (Name "sum_assured") (main_get "sum_assured");
       Assign (Name "remaining_term") (main_get "remaining_term");
       If (Compare t_ "Lt" (Name "remaining_term"))
          [Return (BinOp (BinOp (call1 "survival_rate" (BinOp t_ Sub (int_ 1))) Mult
                                (Name "DEATH_PROB")) Mult (Name "sum_assured"))]
          [If (Compare t_ "Eq" (Name "remaining_term"))
              [Return (BinOp (call1 "survival_rate" t_) Mult (Name "sum_assured"))]
              [Return (int_ 0)]]]
      [assign_ "expected_benefit"]].

Definition _net_single_premium : AST :=
    Module_ [FunctionDef ["t"]
      [Return (BinOp (call1 "expected_benefit" t_) Add
                 (BinOp (BinOp (call1 "net_single_premium" (BinOp t_ Add (int_ 1))) Mult (int_ 1))
                        Div (BinOp (int_ 1) Add (Name "INTEREST_RATE"))))]
      [assign_ "net_single_premium"]].

Definition survival_rate := variable_ "survival_rate" _survival_rate.
Definition expected_benefit := variable_ "expected_benefit" _expected_benefit.
Definition net_single_premium := variable_ "net_single_premium" _net_single_premium.
Definition variables := [survival_rate; expected_benefit; net_single_premium].
End endowment.

(** [def f(t): return f(t-1) * r]. *)
Definition f_formula : AST :=
  Module_ [FunctionDef ["t"] [Return (BinOp (call1 "f" (BinOp t_ Sub (int_ 1))) Mult (Name "r"))] []].
Definition f_variable := variable_ "f" f_formula.

(** [def g(t): return max(0, f(t))]: the call of [f] is an argument of the
    call of [max]. *)
Definition g_formula : AST :=
  Module_ [FunctionDef ["t"] [Return (Call (Name "max") [int_ 0; call1 "f" t_] [])] []].
Definition g_variable := variable_ "g" g_formula.

(** [def h(t): return f(t) + 1]: the call of [f] is an operand. *)
Definition h_formula : AST :=
  Module_ [FunctionDef ["t"] [Return (BinOp (call1 "f" t_) Add (int_ 1))] []].
Definition h_variable := variable_ "h" h_formula.

(** [def bad(t): return f()] and [def bad2(t): return f(t*2)]. *)
Definition bad_formula : AST :=
  Module_ [FunctionDef ["t"] [Return (Call (Name "f") [] [])] []].
Definition bad2_formula : AST :=
  Module_ [FunctionDef ["t"] [Return (call1 "f" (BinOp t_ Mult (int_ 2)))] []].

(** [def a(t): return a(t-1) + 1] and [def b(t): return 2 * a(t)]: only [a]
    has a time-shifted call. *)
Definition a_formula : AST :=
  Module_ [FunctionDef ["t"] [Return (BinOp (call1 "a" (BinOp t_ Sub (int_ 1))) Add (int_ 1))] []].
Definition b_formula : AST :=
  Module_ [FunctionDef ["t"] [Return (BinOp (int_ 2) Mult (call1 "a" t_))] []].
Definition a_variable := variable_ "a" a_formula.
Definition b_variable := variable_ "b" b_formula.

(** ** The claims' wording of the permitted argument shapes *)

(** "A literal integer constant", read as an [int] literal such as [0] or
    [12]. *)
Definition is_integer_literal (x : AST) : bool :=
  match x with
  | Constant (CInt _) => true
  | _ => false
  end.

Definition is_boolean_literal (x : AST) : bool :=
  match x with
  | Constant (CBool _) => true
  | _ => false
  end.

(** The bare time cursor, a literal, or the time cursor plus or minus a
    literal, for a given notion of literal. *)
Definition shape_over (literal : AST → bool) (arg : AST) : bool :=
  match arg with
  | Name id => bool_decide (id = "t")
  | Constant _ => literal arg
  | BinOp lhs op rhs =>
      is_Name_t lhs && (isinstance_Add op || isinstance_Sub op) && literal rhs
  | _ => false
  end.

(** The shapes as the specification lists them. *)
Definition permitted_shape_spec : AST → bool := shape_over is_integer_literal.

(** The shapes with a boolean literal allowed where an integer literal is. *)
Definition permitted_shape : AST → bool :=
  shape_over (λ x, is_integer_literal x || is_boolean_literal x).

(** The callee of a call that the visitors act on: a bare name among the
    known names. *)
Definition known_callee (variable_names : list string) (node : AST) : option string :=
  match node with
  | Call (Name id) _ _ => if bool_decide (id ∈ variable_names) then Some id else None
  | _ => None
  end.

(** The running direction that the member at position [i] starts from: the
    initial one for the first member, else the one assigned to the member
    before it. *)
Definition direction_before (initial : string) (assigned : list Variable_) (i : nat) : string :=
  match i with
  | O => initial
  | S j => from_option calc_direction initial (assigned !! j)
  end.

(** A call of a known name with no positional argument. *)
Definition known_call_without_argument (variable_names : list string) (node : AST) : bool :=
  match node with
  | Call (Name id) [] _ => bool_decide (id ∈ variable_names)
  | _ => false
  end.

(** A time-shifted call: a call of a known name whose first argument is the
    time cursor plus or minus something. *)
Definition known_shifted_call (variable_names : list string) (node : AST) : bool :=
  match node with
  | Call (Name id) (BinOp lhs op _ :: _) _ =>
      bool_decide (id ∈ variable_names)
      && is_Name_t lhs && (isinstance_Add op || isinstance_Sub op)
  | _ => false
  end.

(** The names of the objects that [get_calls] returned. *)
Definition called_names (calls : list (option Variable_)) : list (option string) :=
  (λ o : option Variable_, name <$> o) <$> calls.

(** The validator rejects a call that the extractor would validate. *)
Definition rejected (variable_names : list string) (c : AST) : bool :=
  match known_callee variable_names c, raise_error_if_incorrect_argument c with
  | Some _, Raise _ => true
  | _, _ => false
  end.

(** ** Calls and the calls below them *)

(** The tree contains a call node. *)
Fixpoint has_call (node : AST) : bool :=
  match node with
  | Call _ _ _ => true
  | Name _ => false
  | Constant _ => false
  | BinOp lhs _ rhs => has_call lhs || has_call rhs
  | Node _ children =>
      (fix go (l : list AST) : bool :=
         match l with
         | [] => false
         | child :: l' => has_call child || go l'
         end) children
  end.

(** No call of the tree has a call in its callee, its arguments or its
    keywords. *)
Fixpoint no_call_below_call (node : AST) : bool :=
  match node with
  | Call fn args keywords =>
      negb (has_call fn)
      && forallb (λ x, negb (has_call x)) args
      && forallb (λ x, negb (has_call x)) keywords
  | Name _ => true
  | Constant _ => true
  | BinOp lhs _ rhs => no_call_below_call lhs && no_call_below_call rhs
  | Node _ children =>
      (fix go (l : list AST) : bool :=
         match l with
         | [] => true
         | child :: l' => no_call_below_call child && go l'
         end) children
  end.

(** The direction that a time shift with operator [op] asks for. *)
Definition direction_of_shift (op : operator) : string :=
  if isinstance_Add op then "backward" else "forward".

(** [def p(t): return p(t-1) + q(t+1) + q(t)]: two time shifts, the last one
    forward in time. *)
Definition p_formula : AST :=
  Module_ [FunctionDef ["t"]
    [Return (BinOp (BinOp (call1 "p" (BinOp t_ Sub (int_ 1))) Add
                          (call1 "q" (BinOp t_ Add (int_ 1)))) Add (call1 "q" t_))] []].

(** [1 → 0] where node [1] is not a node of the graph. *)
Definition dangling_graph : gmap nat (list nat) := <[0 := [1]]> ∅.

(** [def g3(t): return f(t) + max(0, other(t, 1))]: the call of [other],
    with two arguments, is an argument of the call of [max]. *)
Definition g3_formula : AST :=
  Module_ [FunctionDef ["t"]
    [Return (BinOp (call1 "f" t_) Add
               (Call (Name "max") [int_ 0; Call (Name "other") [t_; int_ 1] []] []))] []].
Definition g3_variable := variable_ "g3" g3_formula.

(** [def other(t): return 1]. *)
Definition other_variable :=
  variable_ "other" (Module_ [FunctionDef ["t"] [Return (int_ 1)] []]).

(** [a], then [def f(t): return a(t+1) + f()], then [b]: the formula of the
    second member calls a group member without argument. *)
Definition failing_group : list Variable_ :=
  [a_variable;
   variable_ "f" (Module_ [FunctionDef ["t"]
     [Return (BinOp (call1 "a" (BinOp t_ Add (int_ 1))) Add (Call (Name "f") [] []))] []]);
   b_variable].

(** * Properties *)

(** ** The error monad and the traversal *)

Lemma bind_Ok_inv {A B} (r : result A) (k : A → result B) b :
  bind r k = Ok b → ∃ a, r = Ok a ∧ k a = Ok b.
Proof. destruct r as [a|e]; simpl; [eauto | discriminate]. Qed.

Lemma for_each_app {A S} (body : S → A → result S) l1 l2 s :
  for_each body (l1 ++ l2) s = bind (for_each body l1 s) (for_each body l2).
Proof.
  revert s. induction l1 as [|x l1 IH]; intros s; simpl; [done|].
  destruct (body s x) as [s'|e]; simpl; [apply IH | done].
Qed.

(** The traversal is the handler run over the dispatched calls, in order. *)
Lemma visit_dispatched_calls {S} (visit_Call : S → AST → result S) node :
  ∀ self, visit visit_Call node self = for_each visit_Call (dispatched_calls node) self.
Proof.
  induction node as [id|value|lhs op rhs IHl IHr|fn args keywords _ _ _|cls children IH]
    using AST_nested_ind; intros self; simpl.
  - done.
  - done.
  - rewrite for_each_app, IHl. destruct (for_each _ _ self); simpl; [apply IHr | done].
  - by destruct (visit_Call self _).
  - revert self. induction IH as [|child l Hchild _ IHl]; intros self; [done|].
    rewrite for_each_app, Hchild.
    destruct (for_each _ (dispatched_calls child) self); simpl; [apply IHl | done].
Qed.

(** A dispatched call is a call node of the tree. *)
Lemma dispatched_calls_are_calls node c :
  c ∈ dispatched_calls node → ∃ fn args keywords, c = Call fn args keywords.
Proof.
  induction node as [id|value|lhs op rhs IHl IHr|fn args keywords _ _ _|cls children IH]
    using AST_nested_ind; simpl.
  - by intros ?%elem_of_nil.
  - by intros ?%elem_of_nil.
  - intros [?|?]%elem_of_app; eauto.
  - intros ->%list_elem_of_singleton. eauto.
  - induction IH as [|child l Hchild _ IHl]; [by intros ?%elem_of_nil|].
    intros [?|?]%elem_of_app; eauto.
Qed.

(** ** The validator *)

Lemma check_argument_permitted msg arg :
  check_argument msg arg
  = if permitted_shape arg then Ok tt else Raise (CashflowModelError msg).
Proof.
  destruct arg as [id|value|lhs op rhs|fn args keywords|cls children];
    unfold check_argument, permitted_shape, shape_over; simpl; try done.
  - by case_bool_decide.
  - by destruct value.
  - destruct (is_Name_t lhs), (isinstance_Add op || isinstance_Sub op); simpl; try done.
    destruct rhs as [|value| | |]; simpl; try done. by destruct value.
Qed.

Lemma validator_on_named_call id args keywords :
  raise_error_if_incorrect_argument (Call (Name id) args keywords)
  = match args with
    | [arg] =>
        if permitted_shape arg then Ok tt
        else Raise (CashflowModelError (shape_msg id))
    | _ => Raise (CashflowModelError (arity_msg id))
    end.
Proof.
  destruct args as [|arg [|arg' args]]; simpl; try done.
  apply check_argument_permitted.
Qed.

(** C4, as amended: a call whose callee is the name [id] is rejected with
    the arity message naming [id] when it does not have exactly one
    positional argument; with exactly one it is accepted when the argument is
    [t], an integer or boolean literal, or [t] plus or minus an integer or
    boolean literal, and rejected with the shape message naming [id]
    otherwise; and the shapes of the specification are among the accepted
    ones. *)
Theorem validator_accepts_exactly_permitted_shapes id args keywords :
  raise_error_if_incorrect_argument (Call (Name id) args keywords)
  = match args with
    | [arg] =>
        if permitted_shape arg then Ok tt
        else Raise (CashflowModelError (shape_msg id))
    | _ => Raise (CashflowModelError (arity_msg id))
    end
  ∧ (∀ arg, permitted_shape arg
            = permitted_shape_spec arg
              || is_boolean_literal arg
              || match arg with
                 | BinOp lhs op rhs =>
                     is_Name_t lhs && (isinstance_Add op || isinstance_Sub op)
                     && is_boolean_literal rhs
                 | _ => false
                 end).
Proof.
  split.
  - apply validator_on_named_call.
  - intros arg. unfold permitted_shape, permitted_shape_spec, shape_over.
    destruct arg as [id'|value|lhs op rhs|fn args' keywords'|cls children]; simpl.
    + by rewrite !orb_false_r.
    + by rewrite orb_false_r.
    + destruct (is_Name_t lhs), (isinstance_Add op || isinstance_Sub op); simpl; try done.
      by destruct (is_integer_literal rhs), (is_boolean_literal rhs).
    + done.
    + done.
Qed.

(** C4 as stated fails: [f(True)] is accepted although [True] is neither the
    time cursor, nor an integer literal, nor the cursor plus or minus one. *)
Lemma validator_accepts_non_integer_literal :
  permitted_shape_spec (Constant (CBool true)) = false
  ∧ raise_error_if_incorrect_argument (call1 "f" (Constant (CBool true))) = Ok tt
  ∧ raise_error_if_incorrect_argument (call1 "f" (Constant (CBool true)))
    ≠ Raise (CashflowModelError (shape_msg "f")).
Proof. by vm_compute. Qed.

(** C10: the validator accepts a boolean constant wherever it accepts an
    integer constant, alone or as the offset of [t+...] and [t-...]; the
    extractor then records the call. *)
Theorem validator_accepts_boolean_literals id (b : bool) keywords :
  raise_error_if_incorrect_argument (Call (Name id) [Constant (CBool b)] keywords) = Ok tt
  ∧ raise_error_if_incorrect_argument
      (Call (Name id) [BinOp (Name "t") Add (Constant (CBool b))] keywords) = Ok tt
  ∧ raise_error_if_incorrect_argument
      (Call (Name id) [BinOp (Name "t") Sub (Constant (CBool b))] keywords) = Ok tt
  ∧ permitted_shape_spec (Constant (CBool b)) = false
  ∧ ∀ calls, CallVisitor.visit_Call [id] calls (Call (Name id) [Constant (CBool b)] keywords)
             = Ok (calls ++ [id]).
Proof.
  repeat split; try done.
  intros calls. unfold CallVisitor.visit_Call.
  rewrite bool_decide_eq_true_2 by apply list_elem_of_here. done.
Qed.

(** ** The classifier's handling of one call *)

(** C1, as amended: at a call of a group member whose single argument is
    [t + k] the running direction becomes ["backward"], at [t - k] it becomes
    ["forward"]; classifying the group [[f]] with [f(t) = f(t-1) * r] assigns
    ["forward"] to [f]. *)
Theorem shifted_call_sets_direction variable_names calc_direction id (k : Z) keywords :
  id ∈ variable_names →
  CalcDirectionVisitor.visit_Call variable_names calc_direction
    (Call (Name id) [BinOp (Name "t") Add (Constant (CInt k))] keywords) = Ok "backward"
  ∧ CalcDirectionVisitor.visit_Call variable_names calc_direction
      (Call (Name id) [BinOp (Name "t") Sub (Constant (CInt k))] keywords) = Ok "forward"
  ∧ get_calc_direction [f_variable] = Ok [set_calc_direction f_variable "forward"].
Proof.
  intros Hid. unfold CalcDirectionVisitor.visit_Call.
  rewrite bool_decide_eq_true_2 by done. done.
Qed.

Lemma shifted_call_sets_direction_witness :
  "f" ∈ ["f"; "g"]
  ∧ CalcDirectionVisitor.visit_Call ["f"; "g"] "irrelevant"
      (Call (Name "f") [BinOp (Name "t") Add (Constant (CInt 1))] []) = Ok "backward".
Proof.
  assert (H : "f" ∈ ["f"; "g"]) by apply list_elem_of_here.
  split; [exact H|].
  exact (proj1 (shifted_call_sets_direction ["f"; "g"] "irrelevant" "f" 1 [] H)).
Defined.

(** C1 as stated fails: the group [[f]] with [f(t) = f(t-1) * r] is not
    assigned ["backward"], and a call with [t+1] does not set ["forward"]. *)
Lemma singleton_minus_offset_not_backward :
  (∃ f', get_calc_direction [f_variable] = Ok [f']
         ∧ calc_direction f' = "forward" ∧ calc_direction f' ≠ "backward")
  ∧ CalcDirectionVisitor.visit_Call ["f"] "irrelevant" (call1 "f" (BinOp t_ Add (int_ 1)))
    ≠ Ok "forward".
Proof.
  split; [|by vm_compute].
  exists (set_calc_direction f_variable "forward"). by vm_compute.
Qed.

(** ** Calls below a call *)

(** C2 fails on the code: the call of [f] in [g(t) = max(0, f(t))] is in the
    tree, is not dispatched to [visit_Call], and [get_calls] returns no
    reference for it; the call of [f] in [h(t) = f(t) + 1] is recorded. *)
Theorem call_inside_call_not_recorded :
  call1 "f" t_ ∈ all_calls g_formula
  ∧ (call1 "f" t_ ∉ dispatched_calls g_formula)
  ∧ get_calls g_variable [g_variable; f_variable] = Ok []
  ∧ get_calls h_variable [h_variable; f_variable] = Ok [Some f_variable].
Proof.
  repeat split.
  - vm_compute. apply list_elem_of_further, list_elem_of_here.
  - vm_compute. by intros [=]%list_elem_of_singleton.
Qed.

(** ** The extractor *)

Lemma known_callee_Some variable_names c id :
  known_callee variable_names c = Some id →
  id ∈ variable_names ∧ ∃ args keywords, c = Call (Name id) args keywords.
Proof.
  destruct c as [| | |fn args keywords|]; simpl; try done.
  destruct fn as [id'| | | |]; try done.
  case_bool_decide; [|done]. intros [= ->]. eauto.
Qed.

(** The validator's two errors both name the callee. *)
Lemma validator_error_names_callee variable_names c id e :
  known_callee variable_names c = Some id →
  raise_error_if_incorrect_argument c = Raise e →
  e = CashflowModelError (arity_msg id) ∨ e = CashflowModelError (shape_msg id).
Proof.
  intros (_ & args & keywords & ->)%known_callee_Some.
  rewrite validator_on_named_call.
  destruct args as [|arg [|arg' args]]; [naive_solver| |naive_solver].
  destruct (permitted_shape arg); naive_solver.
Qed.

Lemma CallVisitor_visit_Call_known variable_names calls c id :
  known_callee variable_names c = Some id →
  CallVisitor.visit_Call variable_names calls c
  = (_ ←! raise_error_if_incorrect_argument c; Ok (calls ++ [id])).
Proof.
  intros Hknown. destruct (known_callee_Some _ _ _ Hknown) as (Hin & args & keywords & ->).
  unfold CallVisitor.visit_Call. by rewrite bool_decide_eq_true_2.
Qed.

Lemma CallVisitor_visit_Call_unknown variable_names calls fn args keywords :
  known_callee variable_names (Call fn args keywords) = None →
  CallVisitor.visit_Call variable_names calls (Call fn args keywords) = Ok calls.
Proof.
  unfold CallVisitor.visit_Call, known_callee.
  destruct fn; try done. by case_bool_decide.
Qed.

Lemma omap_cons_eq {A B} (f : A → option B) x l :
  omap f (x :: l) = match f x with Some y => y :: omap f l | None => omap f l end.
Proof. done. Qed.

(** A run of the extractor's handler that does not raise has recorded the
    callee of every call with a known callee, in order, and every such call
    passed the validator. *)
Lemma CallVisitor_run_Ok variable_names cs :
  Forall (λ c, ∃ fn args keywords, c = Call fn args keywords) cs →
  ∀ calls calls',
    for_each (CallVisitor.visit_Call variable_names) cs calls = Ok calls' →
    calls' = calls ++ omap (known_callee variable_names) cs
    ∧ ∀ c, c ∈ cs → is_Some (known_callee variable_names c) →
           raise_error_if_incorrect_argument c = Ok tt.
Proof.
  induction 1 as [|c cs (fn & args & keywords & ->) _ IH]; intros calls calls'; cbn [for_each].
  - intros [= <-]. split; [by rewrite app_nil_r | by intros c ?%elem_of_nil].
  - intros (calls1 & Hstep & Hrest)%bind_Ok_inv.
    apply IH in Hrest as [-> Hvalid].
    destruct (known_callee variable_names (Call fn args keywords)) as [id|] eqn:Hknown.
    + rewrite (CallVisitor_visit_Call_known _ _ _ _ Hknown) in Hstep.
      apply bind_Ok_inv in Hstep as ([] & Hval & [= <-]).
      split; [rewrite omap_cons_eq, Hknown; by rewrite <- app_assoc|].
      intros c [->|Hc]%elem_of_cons ?; eauto.
    + rewrite (CallVisitor_visit_Call_unknown _ _ _ _ _ Hknown) in Hstep.
      injection Hstep as <-. split; [by rewrite omap_cons_eq, Hknown|].
      intros c [->|Hc]%elem_of_cons Hsome; [|eauto].
      rewrite Hknown in Hsome. by destruct Hsome.
Qed.

(** The first call with a known callee that the validator rejects ends the
    run with the validator's exception. *)
Lemma CallVisitor_run_Raise variable_names pre c post id e calls :
  Forall (λ c, ∃ fn args keywords, c = Call fn args keywords) pre →
  (∀ c', c' ∈ pre → is_Some (known_callee variable_names c') →
         raise_error_if_incorrect_argument c' = Ok tt) →
  known_callee variable_names c = Some id →
  raise_error_if_incorrect_argument c = Raise e →
  for_each (CallVisitor.visit_Call variable_names) (pre ++ c :: post) calls = Raise e.
Proof.
  intros Hcalls Hpre Hknown Hraise. revert calls.
  induction Hcalls as [|c' pre (fn & args & keywords & ->) _ IH]; intros calls;
    cbn [for_each app].
  - rewrite (CallVisitor_visit_Call_known _ _ _ _ Hknown), Hraise. done.
  - destruct (known_callee variable_names (Call fn args keywords)) as [id'|] eqn:Hknown'.
    + rewrite (CallVisitor_visit_Call_known _ _ _ _ Hknown').
      rewrite Hpre; [|left|by rewrite Hknown']. simpl.
      apply IH. intros c' Hc'. apply Hpre. by right.
    + rewrite (CallVisitor_visit_Call_unknown _ _ _ _ _ Hknown'). simpl.
      apply IH. intros c' Hc'. apply Hpre. by right.
Qed.

(** Among the calls satisfying a test, one comes first. *)
Lemma first_such {A} (test : A → bool) (l : list A) x :
  x ∈ l → test x = true →
  ∃ pre y post, l = pre ++ y :: post ∧ test y = true ∧ ∀ z, z ∈ pre → test z = false.
Proof.
  induction l as [|a l IH]; [by intros ?%elem_of_nil|].
  intros Hx Htest. destruct (test a) eqn:Ha.
  - exists [], a, l. split; [done|]. split; [done|]. by intros z ?%elem_of_nil.
  - apply elem_of_cons in Hx as [->|Hx]; [congruence|].
    destruct (IH Hx Htest) as (pre & y & post & -> & Hy & Hpre).
    exists (a :: pre), y, post. split; [done|]. split; [done|].
    intros z [->|Hz]%elem_of_cons; eauto.
Qed.

Lemma get_object_by_name_Some objects name_ :
  name_ ∈ name <$> objects →
  ∃ v, get_object_by_name objects name_ = Some v ∧ v ∈ objects ∧ name v = name_.
Proof.
  intros (v & Hname & Hv)%list_elem_of_fmap. unfold get_object_by_name.
  destruct (list_find (λ object, name object = name_) objects) as [[i w]|] eqn:Hfind.
  - apply list_find_Some in Hfind as (Hi & Hw & _). simpl.
    exists w. split; [done|]. split; [|done]. by eapply list_elem_of_lookup_2.
  - apply list_find_None in Hfind. rewrite Forall_forall in Hfind.
    by destruct (Hfind v Hv).
Qed.

Lemma elem_of_omap_known_callee variable_names (cs : list AST) id :
  id ∈ omap (known_callee variable_names) cs → id ∈ variable_names.
Proof.
  intros (c & _ & Hknown)%list_elem_of_omap.
  by apply known_callee_Some in Hknown as [? _].
Qed.

Lemma rejected_true variable_names c :
  rejected variable_names c = true →
  ∃ id e, known_callee variable_names c = Some id
          ∧ raise_error_if_incorrect_argument c = Raise e.
Proof.
  unfold rejected. destruct (known_callee variable_names c); [|done].
  destruct (raise_error_if_incorrect_argument c); [done|eauto].
Qed.

Lemma rejected_false variable_names c :
  rejected variable_names c = false →
  is_Some (known_callee variable_names c) →
  raise_error_if_incorrect_argument c = Ok tt.
Proof.
  unfold rejected. intros Hrej [id Hknown]. rewrite Hknown in Hrej.
  by destruct (raise_error_if_incorrect_argument c) as [[]|].
Qed.

Lemma dispatched_calls_Forall node :
  Forall (λ c, ∃ fn args keywords, c = Call fn args keywords) (dispatched_calls node).
Proof. apply Forall_forall. intros c. apply dispatched_calls_are_calls. Qed.

Lemma get_calls_unfold variable variables :
  get_calls variable variables
  = (call_names ←! for_each (CallVisitor.visit_Call (name <$> variables))
                     (dispatched_calls (func variable)) [];
     Ok (get_object_by_name variables <$>
           filter (λ call_name, call_name ≠ name variable) call_names)).
Proof.
  unfold get_calls, CallVisitor.visit, CallVisitor.init.
  by rewrite visit_dispatched_calls.
Qed.

(** C3, as amended: every entry of the returned list is a known variable
    other than the analysed one, and the list has one entry for each
    dispatched call of another known variable, in order, so that a variable
    called twice is listed twice. *)
Theorem extractor_excludes_self variable variables calls :
  get_calls variable variables = Ok calls →
  (∀ o, o ∈ calls → ∃ v, o = Some v ∧ v ∈ variables ∧ name v ≠ name variable)
  ∧ called_names calls
    = Some <$> filter (λ call_name, call_name ≠ name variable)
                 (omap (known_callee (name <$> variables))
                       (dispatched_calls (func variable))).
Proof.
  rewrite get_calls_unfold.
  intros (call_names & Hrun & [= <-])%bind_Ok_inv.
  apply CallVisitor_run_Ok in Hrun as [-> _]; [|apply dispatched_calls_Forall].
  rewrite app_nil_l.
  set (known := omap _ _).
  assert (Hknown : ∀ id, id ∈ known → id ∈ name <$> variables)
    by (intros id; apply elem_of_omap_known_callee).
  clearbody known. split.
  - intros o (id & -> & [Hne Hid]%list_elem_of_filter)%list_elem_of_fmap.
    destruct (get_object_by_name_Some variables id) as (v & -> & Hv & <-); eauto.
  - unfold called_names. rewrite <- list_fmap_compose.
    induction known as [|id known IH]; [done|].
    rewrite filter_cons. case_decide as Hne.
    + rewrite !fmap_cons, IH by (intros; apply Hknown; by right).
      destruct (get_object_by_name_Some variables id) as (v & Hv & _ & <-);
        [apply Hknown; by left|].
      simpl. by rewrite Hv.
    + apply IH. intros; apply Hknown; by right.
Qed.

Lemma extractor_excludes_self_witness :
  called_names [Some endowment.survival_rate; Some endowment.survival_rate]
  = Some <$> filter (λ call_name, call_name ≠ name endowment.expected_benefit)
               (omap (known_callee (name <$> endowment.variables))
                     (dispatched_calls (func endowment.expected_benefit))).
Proof.
  exact (proj2 (extractor_excludes_self endowment.expected_benefit endowment.variables
                  [Some endowment.survival_rate; Some endowment.survival_rate] eq_refl)).
Defined.

(** C3 as stated fails: the formula of [expected_benefit] calls
    [survival_rate] twice and [get_calls] lists it twice. *)
Lemma extractor_lists_a_name_twice :
  ∃ calls, get_calls endowment.expected_benefit endowment.variables = Ok calls
           ∧ called_names calls = [Some "survival_rate"; Some "survival_rate"]
           ∧ ¬ NoDup (called_names calls).
Proof.
  exists [Some endowment.survival_rate; Some endowment.survival_rate].
  split; [done|]. split; [done|].
  intros [Hin _]%NoDup_cons. apply Hin. apply list_elem_of_here.
Qed.

(** When the validator rejects a call that the extractor validates, that is
    a dispatched call of a known variable, the extractor returns no list; it
    raises the validator's exception for the first such call, whose message
    names that call's callee. *)
Theorem extractor_fails_entirely variable variables c id e :
  c ∈ dispatched_calls (func variable) →
  known_callee (name <$> variables) c = Some id →
  raise_error_if_incorrect_argument c = Raise e →
  (∀ calls, get_calls variable variables ≠ Ok calls)
  ∧ ∃ pre c0 post id0 e0,
      dispatched_calls (func variable) = pre ++ c0 :: post
      ∧ (∀ c', c' ∈ pre → rejected (name <$> variables) c' = false)
      ∧ known_callee (name <$> variables) c0 = Some id0
      ∧ raise_error_if_incorrect_argument c0 = Raise e0
      ∧ (e0 = CashflowModelError (arity_msg id0) ∨ e0 = CashflowModelError (shape_msg id0))
      ∧ get_calls variable variables = Raise e0.
Proof.
  intros Hc Hknown Hraise.
  assert (Hrej : rejected (name <$> variables) c = true)
    by (unfold rejected; by rewrite Hknown, Hraise).
  destruct (first_such _ _ _ Hc Hrej) as (pre & c0 & post & Hsplit & Hrej0 & Hpre).
  destruct (rejected_true _ _ Hrej0) as (id0 & e0 & Hknown0 & Hraise0).
  assert (Hget : get_calls variable variables = Raise e0).
  { rewrite get_calls_unfold, Hsplit.
    rewrite (CallVisitor_run_Raise _ pre c0 post id0 e0); try done.
    - pose proof (dispatched_calls_Forall (func variable)) as Hall.
      rewrite Hsplit in Hall. by apply Forall_app in Hall as [? _].
    - intros c' Hc' Hsome. apply (rejected_false (name <$> variables)); auto. }
  split; [intros calls; by rewrite Hget|].
  exists pre, c0, post, id0, e0. repeat split; try done.
  by eapply validator_error_names_callee.
Qed.

Lemma extractor_fails_entirely_witness :
  get_calls (variable_ "bad2" bad2_formula) [variable_ "bad2" bad2_formula; f_variable]
  ≠ Ok [].
Proof.
  refine (proj1 (extractor_fails_entirely (variable_ "bad2" bad2_formula)
                   [variable_ "bad2" bad2_formula; f_variable]
                   (call1 "f" (BinOp t_ Mult (int_ 2))) "f"
                   (CashflowModelError (shape_msg "f")) _ eq_refl eq_refl) []).
  vm_compute. apply list_elem_of_here.
Defined.

(** C6 fails on the code: in [g3(t) = f(t) + max(0, other(t, 1))] the call
    of the known variable [other] has two arguments, which the validator
    rejects with its arity error; being an argument of the call of [max] it
    is never validated, and [get_calls] raises nothing and returns the list
    with [f] alone. *)
Theorem invalid_call_inside_call_not_rejected :
  Call (Name "other") [t_; int_ 1] [] ∈ all_calls g3_formula
  ∧ known_callee (name <$> [g3_variable; f_variable; other_variable])
      (Call (Name "other") [t_; int_ 1] []) = Some "other"
  ∧ raise_error_if_incorrect_argument (Call (Name "other") [t_; int_ 1] [])
    = Raise (CashflowModelError (arity_msg "other"))
  ∧ get_calls g3_variable [g3_variable; f_variable; other_variable] = Ok [Some f_variable].
Proof.
  split; [|done]. vm_compute.
  apply list_elem_of_further, list_elem_of_further, list_elem_of_here.
Qed.

(** ** The classifier *)

(** The handler's only exception is the [IndexError] of [node.args[0]]. *)
Lemma CalcDirectionVisitor_visit_Call_Raise variable_names d fn args keywords e :
  CalcDirectionVisitor.visit_Call variable_names d (Call fn args keywords) = Raise e →
  e = IndexError ∧ known_call_without_argument variable_names (Call fn args keywords) = true.
Proof.
  unfold CalcDirectionVisitor.visit_Call, known_call_without_argument.
  destruct fn as [id| | | |]; try done.
  case_bool_decide; [|done].
  destruct args as [|arg args]; [by intros [= <-]|].
  by destruct arg.
Qed.

Lemma CalcDirectionVisitor_visit_Call_unchanged variable_names d d' fn args keywords :
  CalcDirectionVisitor.visit_Call variable_names d (Call fn args keywords) = Ok d' →
  known_shifted_call variable_names (Call fn args keywords) = false →
  d' = d.
Proof.
  unfold CalcDirectionVisitor.visit_Call, known_shifted_call.
  destruct fn as [id| | | |]; try by intros [= <-].
  case_bool_decide; [|by intros [= <-]].
  destruct args as [|arg args]; [done|].
  destruct arg as [| |lhs op rhs| |]; try by intros [= <-].
  destruct (is_Name_t lhs); [|by intros [= <-]].
  by destruct op; simpl; try by intros [= <-].
Qed.

Lemma CalcDirectionVisitor_run_Raise variable_names cs :
  Forall (λ c, ∃ fn args keywords, c = Call fn args keywords) cs →
  ∀ d e, for_each (CalcDirectionVisitor.visit_Call variable_names) cs d = Raise e →
         e = IndexError
         ∧ ∃ c, c ∈ cs ∧ known_call_without_argument variable_names c = true.
Proof.
  induction 1 as [|c cs (fn & args & keywords & ->) _ IH]; intros d e;
    cbn [for_each]; [done|].
  destruct (CalcDirectionVisitor.visit_Call _ d _) as [d'|e'] eqn:Hstep; simpl.
  - intros (-> & c & Hc & Hno)%IH. split; [done|]. exists c. split; [by right|done].
  - intros [= ->]. apply CalcDirectionVisitor_visit_Call_Raise in Hstep as [-> Hno].
    split; [done|]. eexists. split; [by left|done].
Qed.

Lemma CalcDirectionVisitor_run_unchanged variable_names cs :
  Forall (λ c, ∃ fn args keywords, c = Call fn args keywords) cs →
  (∀ c, c ∈ cs → known_shifted_call variable_names c = false) →
  ∀ d d', for_each (CalcDirectionVisitor.visit_Call variable_names) cs d = Ok d' → d' = d.
Proof.
  induction 1 as [|c cs (fn & args & keywords & ->) _ IH]; intros Hno d d';
    cbn [for_each]; [by intros [= <-]|].
  intros (d1 & Hstep & Hrest)%bind_Ok_inv.
  apply CalcDirectionVisitor_visit_Call_unchanged in Hstep as ->; [|apply Hno; by left].
  apply IH in Hrest; [done|]. intros c Hc. apply Hno. by right.
Qed.

Lemma CalcDirectionVisitor_visit_Raise variable_names formula d e :
  CalcDirectionVisitor.visit variable_names formula d = Raise e →
  e = IndexError
  ∧ ∃ c, c ∈ dispatched_calls formula
         ∧ known_call_without_argument variable_names c = true.
Proof.
  unfold CalcDirectionVisitor.visit. rewrite visit_dispatched_calls.
  apply CalcDirectionVisitor_run_Raise, dispatched_calls_Forall.
Qed.

Lemma classify_Raise variable_names variables :
  ∀ d e, classify variable_names d variables = Raise e →
         e = IndexError
         ∧ ∃ v c, v ∈ variables ∧ c ∈ dispatched_calls (func v)
                  ∧ known_call_without_argument variable_names c = true.
Proof.
  induction variables as [|v variables IH]; intros d e; simpl; [done|].
  destruct (CalcDirectionVisitor.visit _ _ d) as [d'|e'] eqn:Hvisit; simpl.
  - destruct (classify variable_names d' variables) as [r|e'] eqn:Hrest; simpl; [done|].
    intros [= ->]. apply IH in Hrest as (-> & w & c & Hw & Hc & Hno).
    split; [done|]. exists w, c. split; [by right|done].
  - intros [= ->]. apply CalcDirectionVisitor_visit_Raise in Hvisit as (-> & c & Hc & Hno).
    split; [done|]. exists v, c. split; [by left|done].
Qed.

(** Each member is assigned what the traversal of its formula makes of the
    direction assigned to the member before it. *)
Lemma classify_Ok variable_names variables :
  ∀ d assigned, classify variable_names d variables = Ok assigned →
    length assigned = length variables
    ∧ ∀ i v, variables !! i = Some v →
        ∃ d', assigned !! i = Some (set_calc_direction v d')
              ∧ CalcDirectionVisitor.visit variable_names (func v)
                  (direction_before d assigned i) = Ok d'.
Proof.
  induction variables as [|v0 variables IH]; intros d assigned; simpl.
  - intros [= <-]. split; [done|]. intros i v. by rewrite lookup_nil.
  - intros (d0 & Hvisit & (rest & Hrest & [= <-])%bind_Ok_inv)%bind_Ok_inv.
    apply IH in Hrest as [Hlen Hrest]. split; [simpl; by rewrite Hlen|].
    intros [|i] v; simpl.
    + intros [= <-]. eauto.
    + intros Hv. destruct (Hrest i v Hv) as (d' & Hi & Hd'). exists d'. split; [done|].
      destruct i as [|j]; simpl in *; [done|].
      destruct (rest !! j) eqn:Hj; [done|].
      apply lookup_ge_None in Hj. apply lookup_lt_Some in Hv. lia.
Qed.

(** The assignments to a prefix of the list are those of the loop run on the
    prefix alone with the same names. *)
Lemma classify_app variable_names l1 l2 :
  ∀ d assigned, classify variable_names d (l1 ++ l2) = Ok assigned →
    ∃ assigned1, classify variable_names d l1 = Ok assigned1
                 ∧ take (length l1) assigned = assigned1.
Proof.
  induction l1 as [|v l1 IH]; intros d assigned; simpl.
  - intros _. exists []. by rewrite take_0.
  - intros (d0 & Hvisit & (rest & Hrest & [= <-])%bind_Ok_inv)%bind_Ok_inv.
    rewrite Hvisit. simpl. apply IH in Hrest as (assigned1 & -> & <-). simpl. eauto.
Qed.




Lemma classify_writes_classify variable_names variables :
  ∀ d, classify variable_names d variables
       = match classify_writes variable_names d variables with
         | (written, None) => Ok written
         | (_, Some e) => Raise e
         end.
Proof.
  induction variables as [|v variables IH]; intros d; simpl; [done|].
  destruct (CalcDirectionVisitor.visit variable_names (func v) d) as [d0|e]; simpl; [|done].
  rewrite IH. by destruct (classify_writes variable_names d0 variables) as [rest' [e|]].
Qed.

Lemma direction_before_cons d w (written : list Variable_) (i : nat) :
  (i ≤ length written)%nat →
  direction_before d (w :: written) (S i) = direction_before (calc_direction w) written i.
Proof.
  destruct i as [|j]; simpl; [done|]. intros Hj.
  destruct (written !! j) eqn:Hlookup; [done|].
  apply lookup_ge_None in Hlookup. lia.
Qed.

(** The members before the first failing formula are written, each with what
    the traversal of its formula makes of the direction written on the member
    before it; the failing member and those after it are left as they
    were. *)
Lemma classify_writes_spec variable_names variables :
  ∀ d written outcome,
    classify_writes variable_names d variables = (written, outcome) →
    length written = length variables
    ∧ ∃ k : nat,
        (k ≤ length variables)%nat
        ∧ (outcome = None → k = length variables)
        ∧ (∀ (i : nat) v, variables !! i = Some v → (i < k)%nat →
             ∃ w, written !! i = Some w ∧ name w = name v ∧ func w = func v
                  ∧ CalcDirectionVisitor.visit variable_names (func v)
                      (direction_before d written i) = Ok (calc_direction w))
        ∧ (∀ (i : nat) v, variables !! i = Some v → (k ≤ i)%nat → written !! i = Some v)
        ∧ (∀ e, outcome = Some e →
             ∃ v, variables !! k = Some v
                  ∧ CalcDirectionVisitor.visit variable_names (func v)
                      (direction_before d written k) = Raise e).
Proof.
  induction variables as [|v0 variables IH]; intros d written outcome; simpl.
  - intros [= <- <-]. split; [done|]. exists 0%nat. split; [done|]. split; [done|].
    split; [intros i v; by rewrite lookup_nil|].
    split; [intros i v; by rewrite lookup_nil|done].
  - destruct (CalcDirectionVisitor.visit variable_names (func v0) d) as [d0|e0] eqn:Hvisit.
    + destruct (classify_writes variable_names d0 variables) as [rest' outcome'] eqn:Hrest.
      intros [= <- <-].
      destruct (IH _ _ _ Hrest) as (Hlen & k & Hk & Hnone & Hwritten & Hkept & Hraise).
      split; [simpl; by rewrite Hlen|]. exists (S k). split; [lia|].
      split; [intros Ho; by rewrite Hnone|]. split; [|split].
      * intros [|i] v Hv Hi; simpl in Hv.
        -- injection Hv as <-. exists (set_calc_direction v0 d0). by repeat split.
        -- destruct (Hwritten i v Hv) as (w & Hw & Hn & Hf & Hd); [lia|].
           exists w. repeat split; try done.
           rewrite direction_before_cons by lia. exact Hd.
      * intros [|i] v; simpl; [lia|]. intros Hv Hi. apply Hkept; [done|lia].
      * intros e He. destruct (Hraise e He) as (v & Hv & Hd). exists v. split; [done|].
        rewrite direction_before_cons; [exact Hd|].
        apply lookup_lt_Some in Hv. lia.
    + intros [= <- <-]. split; [done|]. exists 0%nat. split; [lia|]. split; [done|].
      split; [intros i v _ Hi; lia|]. split; [done|].
      intros e [= <-]. exists v0. by split.
Qed.

Lemma classify_writes_length variable_names variables :
  ∀ d, length (classify_writes variable_names d variables).1 = length variables.
Proof.
  intros d. destruct (classify_writes variable_names d variables) as [written outcome] eqn:Hrun.
  apply classify_writes_spec in Hrun as [Hlen _]. exact Hlen.
Qed.

(** What is written on a prefix of the list does not depend on the members
    after it. *)
Lemma classify_writes_take variable_names l1 l2 :
  ∀ d, take (length l1) (classify_writes variable_names d (l1 ++ l2)).1
       = (classify_writes variable_names d l1).1.
Proof.
  induction l1 as [|v l1 IH]; intros d; simpl; [by rewrite take_0|].
  destruct (CalcDirectionVisitor.visit variable_names (func v) d) as [d0|e]; simpl.
  - specialize (IH d0).
    destruct (classify_writes variable_names d0 (l1 ++ l2)) as [rest' outcome'].
    destruct (classify_writes variable_names d0 l1) as [rest1 outcome1].
    simpl in *. by rewrite IH.
  - by rewrite take_app_length.
Qed.

(** C7: the running direction starts as ["irrelevant"] and is one value for
    the whole group.  Every member whose formula is traversed has its
    [calc_direction] written, immediately, with what the traversal of its
    formula makes of the direction written on the member before it; a member
    without a time-shifted call of a group member is written with that
    previous direction unchanged; when a formula raises, that member and
    those after it keep what they had and the earlier writes stay; and what
    the members after a position contain has no effect on what is written up
    to that position. *)
Theorem running_direction_is_shared variables written outcome :
  get_calc_direction_writes variables = (written, outcome) →
  get_calc_direction variables
  = match outcome with None => Ok written | Some e => Raise e end
  ∧ length written = length variables
  ∧ (∃ k : nat,
       (k ≤ length variables)%nat
       ∧ (outcome = None → k = length variables)
       ∧ (∀ (i : nat) v, variables !! i = Some v → (i < k)%nat →
            ∃ w, written !! i = Some w ∧ name w = name v ∧ func w = func v
                 ∧ CalcDirectionVisitor.visit (name <$> variables) (func v)
                     (direction_before "irrelevant" written i) = Ok (calc_direction w)
                 ∧ ((∀ c, c ∈ dispatched_calls (func v) →
                          known_shifted_call (name <$> variables) c = false) →
                    calc_direction w = direction_before "irrelevant" written i))
       ∧ (∀ (i : nat) v, variables !! i = Some v → (k ≤ i)%nat → written !! i = Some v)
       ∧ (∀ e, outcome = Some e →
            ∃ v, variables !! k = Some v
                 ∧ CalcDirectionVisitor.visit (name <$> variables) (func v)
                     (direction_before "irrelevant" written k) = Raise e))
  ∧ (∀ earlier later later' written' outcome',
       variables = earlier ++ later →
       name <$> later' = name <$> later →
       get_calc_direction_writes (earlier ++ later') = (written', outcome') →
       take (length earlier) written' = take (length earlier) written).
Proof.
  unfold get_calc_direction_writes, get_calc_direction, CalcDirectionVisitor.init.
  intros Hrun. split; [by rewrite classify_writes_classify, Hrun|].
  destruct (classify_writes_spec _ _ _ _ _ Hrun)
    as (Hlen & k & Hk & Hnone & Hwritten & Hkept & Hraise).
  split; [done|]. split.
  - exists k. repeat split; try done.
    intros i v Hv Hi. destruct (Hwritten i v Hv Hi) as (w & Hw & Hn & Hf & Hd).
    exists w. repeat split; try done. intros Hno.
    unfold CalcDirectionVisitor.visit in Hd. rewrite visit_dispatched_calls in Hd.
    by apply CalcDirectionVisitor_run_unchanged in Hd; [|apply dispatched_calls_Forall|].
  - intros earlier later later' written' outcome' -> Hnames Hrun'.
    rewrite fmap_app in Hrun, Hrun'. rewrite Hnames in Hrun'.
    pose proof (classify_writes_take ((name <$> earlier) ++ (name <$> later))
                  earlier later "irrelevant") as Htake.
    pose proof (classify_writes_take ((name <$> earlier) ++ (name <$> later))
                  earlier later' "irrelevant") as Htake'.
    rewrite Hrun in Htake. rewrite Hrun' in Htake'. simpl in *. congruence.
Qed.

Lemma running_direction_is_shared_witness :
  ∃ w, [a_variable; b_variable] !! 1%nat = Some b_variable
       ∧ [set_calc_direction a_variable "forward";
          set_calc_direction b_variable "forward"] !! 1%nat = Some w
       ∧ calc_direction w = "forward".
Proof.
  destruct (running_direction_is_shared [a_variable; b_variable]
              [set_calc_direction a_variable "forward";
               set_calc_direction b_variable "forward"] None eq_refl)
    as (_ & _ & (k & _ & Hnone & Hwritten & _) & _).
  destruct (Hwritten 1%nat b_variable eq_refl) as (w & Hw & _ & _ & _ & Hkeep).
  - rewrite (Hnone eq_refl). simpl. lia.
  - exists w. split; [done|]. split; [done|]. rewrite Hkeep; [done|].
    intros c Hc. vm_compute in Hc. apply list_elem_of_singleton in Hc as ->. reflexivity.
Defined.

(** The writes made before a failure stay: in the failing group [a] is
    written ["forward"], the second formula raises, and the second and third
    members keep ["irrelevant"]. *)
Example writes_before_a_failure_stay :
  calc_direction <$> (get_calc_direction_writes failing_group).1
  = ["forward"; "irrelevant"; "irrelevant"]
  ∧ (get_calc_direction_writes failing_group).2 = Some IndexError.
Proof. by vm_compute. Qed.

(** The same two members in either order: after [a], [b] inherits
    ["forward"]; before [a], it keeps ["irrelevant"]. *)
Example direction_depends_on_position :
  get_calc_direction [a_variable; b_variable]
  = Ok [set_calc_direction a_variable "forward"; set_calc_direction b_variable "forward"]
  ∧ get_calc_direction [b_variable; a_variable]
    = Ok [set_calc_direction b_variable "irrelevant"; set_calc_direction a_variable "forward"].
Proof. by vm_compute. Qed.

(** ** The predecessor closure *)

Section get_predecessors_properties.
Context `{Countable vertex}.
Implicit Types DG : gmap vertex (list vertex).
Implicit Types queue visited processed children fresh : list vertex.

(** One pass of the [for] loop puts the same new nodes at the back of the
    queue and of [visited]: those children that were not yet visited. *)
Lemma for_loop_appends children :
    ∀ queue visited, ∃ fresh,
      foldl visit_child (queue, visited) children = (queue ++ fresh, visited ++ fresh)
      ∧ (NoDup visited → NoDup (visited ++ fresh))
      ∧ (∀ c, c ∈ fresh → c ∈ children)
      ∧ (∀ c, c ∈ children → c ∈ visited ++ fresh).
  Proof.
    induction children as [|child children IH]; intros queue visited; simpl.
    - exists []. rewrite !app_nil_r. split; [done|]. split; [done|].
      split; [done|]. by intros c ?%elem_of_nil.
    - case_bool_decide as Hchild.
      + destruct (IH queue visited) as (fresh & -> & Hdup & Hsub & Hall).
        exists fresh. split; [done|]. split; [done|].
        split; [intros c Hc; right; by apply Hsub|].
        intros c [->|Hc]%elem_of_cons; [apply elem_of_app; by left|by apply Hall].
      + destruct (IH (queue ++ [child]) (visited ++ [child]))
          as (fresh & -> & Hdup & Hsub & Hall).
        assert (Heq : ∀ l, l ++ child :: fresh = (l ++ [child]) ++ fresh)
          by (intros l; by rewrite <- app_assoc).
        exists (child :: fresh). rewrite !Heq. split; [done|]. split.
        * intros Hvis. apply Hdup.
          apply NoDup_app. split; [done|]. split; [|apply NoDup_singleton].
          intros x Hx ->%list_elem_of_singleton. done.
        * split.
          -- intros c [->|Hc]%elem_of_cons; [by left|right; by apply Hsub].
          -- intros c [->|Hc]%elem_of_cons.
             ++ apply elem_of_app. left. apply elem_of_app. right. by left.
             ++ by apply Hall.
  Qed.

(** More fuel does not change a result. *)
Lemma while_loop_more_fuel DG fuel :
    ∀ fuel' queue visited r,
      (fuel ≤ fuel')%nat →
      while_loop fuel DG queue visited = Some r →
      while_loop fuel' DG queue visited = Some r.
  Proof.
    induction fuel as [|fuel IH]; intros fuel' queue visited r Hle.
    - destruct queue; [|done]. by destruct fuel'.
    - destruct queue as [|node queue]; [by destruct fuel'|].
      destruct fuel' as [|fuel']; [lia|]. simpl.
      destruct (predecessors DG node) as [children|e]; [|done].
      destruct (foldl visit_child (queue, visited) children) as [queue' visited'].
      apply IH. lia.
  Qed.

Lemma length_processed DG processed :
    NoDup processed → (∀ x, x ∈ processed → is_Some (DG !! x)) →
    (length processed ≤ size DG)%nat.
  Proof.
    intros Hdup Hin.
    rewrite <- (size_dom (D := gset vertex)), <- (size_list_to_set (C := gset vertex)) by done.
    apply subseteq_size. intros x Hx%elem_of_list_to_set. by apply elem_of_dom, Hin.
  Qed.

Lemma loop_invariant_step DG start processed node queue children fresh :
    loop_invariant DG start processed (node :: queue) →
    DG !! node = Some children →
    NoDup ((processed ++ node :: queue) ++ fresh) →
    (∀ c, c ∈ fresh → c ∈ children) →
    (∀ c, c ∈ children → c ∈ (processed ++ node :: queue) ++ fresh) →
    loop_invariant DG start (processed ++ [node]) (queue ++ fresh).
  Proof.
    intros [Hdup Hstart Hsound Hgraph Hclosed] Hnode Hdup' Hsub Hall.
    assert (Heq : (processed ++ [node]) ++ queue ++ fresh
                  = (processed ++ node :: queue) ++ fresh)
      by (by rewrite <- !app_assoc).
    split; rewrite ?Heq.
    - done.
    - apply elem_of_app. by left.
    - intros x [Hx|Hx]%elem_of_app; [by apply Hsound|].
      eapply ancestor_step; [|exact Hnode|by apply Hsub].
      apply Hsound, elem_of_app. right. by left.
    - intros x [Hx| ->%list_elem_of_singleton]%elem_of_app; [by apply Hgraph|by eexists].
    - intros x children' c [Hx| ->%list_elem_of_singleton]%elem_of_app Hx' Hc.
      + apply elem_of_app. left. by eapply Hclosed.
      + rewrite Hnode in Hx'. injection Hx' as <-. by apply Hall.
  Qed.

(** With fuel for the nodes of the graph not yet processed, and one more,
    the loop ends; it returns the ancestors of the start node, each once,
    or raises at an ancestor that is not in the graph. *)
Lemma while_loop_ends DG start fuel :
    ∀ processed queue,
      loop_invariant DG start processed queue →
      (size DG < fuel + length processed)%nat →
      ∃ r, while_loop fuel DG queue (processed ++ queue) = Some r
           ∧ match r with
             | Ok visited =>
                 NoDup visited ∧ start ∈ visited
                 ∧ (∀ x, x ∈ visited ↔ ancestor DG start x)
                 ∧ (∀ x, x ∈ visited → is_Some (DG !! x))
             | Raise e =>
                 e = NetworkXError ∧ ∃ x, ancestor DG start x ∧ DG !! x = None
             end.
  Proof.
    induction fuel as [|fuel IH]; intros processed queue Hinv Hfuel.
    - pose proof (length_processed DG processed) as Hlen.
      destruct Hinv as [Hdup _ _ Hgraph _].
      apply NoDup_app in Hdup as [Hdup _]. specialize (Hlen Hdup Hgraph). simpl in Hfuel. lia.
    - destruct queue as [|node queue].
      + exists (Ok (processed ++ [])). split; [done|].
        destruct Hinv as [Hdup Hstart Hsound Hgraph Hclosed].
        rewrite app_nil_r in *. split; [done|]. split; [done|]. split; [|done].
        intros x. split; [by apply Hsound|].
        induction 1 as [|x children c _ IHx Hx Hc]; [done|]. by eapply Hclosed.
      + simpl. unfold predecessors. destruct (DG !! node) as [children|] eqn:Hnode.
        * destruct (for_loop_appends children queue (processed ++ node :: queue))
            as (fresh & -> & Hdup & Hsub & Hall).
          replace ((processed ++ node :: queue) ++ fresh)
            with ((processed ++ [node]) ++ queue ++ fresh) by (by rewrite <- !app_assoc).
          apply IH.
          -- eapply loop_invariant_step; eauto. apply Hdup, Hinv.
          -- rewrite length_app. simpl. lia.
        * exists (Raise NetworkXError). split; [done|]. split; [done|].
          exists node. split; [|done].
          apply Hinv, elem_of_app. right. by left.
  Qed.

Lemma loop_invariant_initial DG start : loop_invariant DG start [] [start].
  Proof.
    split; simpl.
    - apply NoDup_singleton.
    - by left.
    - intros x ->%list_elem_of_singleton. constructor.
    - by intros x ?%elem_of_nil.
    - by intros x children c ?%elem_of_nil.
  Qed.

Lemma get_predecessors_ends DG node fuel :
    (size DG < fuel)%nat →
    ∃ r, get_predecessors fuel node DG = Some r
         ∧ match r with
           | Ok visited =>
               NoDup visited ∧ node ∈ visited
               ∧ (∀ x, x ∈ visited ↔ ancestor DG node x)
               ∧ (∀ x, x ∈ visited → is_Some (DG !! x))
           | Raise e =>
               e = NetworkXError ∧ ∃ x, ancestor DG node x ∧ DG !! x = None
           end.
  Proof.
    intros Hfuel. apply (while_loop_ends DG node fuel [] [node]).
    - apply loop_invariant_initial.
    - simpl. lia.
  Qed.

Lemma ancestor_in_graph DG start x :
    well_formed DG → is_Some (DG !! start) → ancestor DG start x → is_Some (DG !! x).
  Proof.
    intros Hwf Hstart. induction 1 as [|x children c _ _ Hx Hc]; [done|].
    specialize (Hwf x children Hx). simpl in Hwf. rewrite Forall_forall in Hwf. by apply Hwf.
  Qed.

Lemma ancestor_same_edges DG DG' start x :
    same_edges DG DG' → ancestor DG start x → ancestor DG' start x.
  Proof.
    intros Hsame. induction 1 as [|x children c _ IH Hx Hc]; [constructor|].
    destruct (proj1 (Hsame x c)) as (children' & Hx' & Hc'); [eauto|].
    by eapply ancestor_step.
  Qed.
End get_predecessors_properties.

Lemma get_predecessors_Ok `{Countable vertex} (DG : gmap vertex (list vertex))
    node fuel visited :
  get_predecessors fuel node DG = Some (Ok visited) →
  NoDup visited ∧ node ∈ visited
  ∧ (∀ x, x ∈ visited ↔ ancestor DG node x)
  ∧ (∀ x, x ∈ visited → is_Some (DG !! x)).
Proof.
  intros Hrun.
  destruct (get_predecessors_ends DG node (fuel `max` S (size DG))) as (r & Hr & Hspec);
    [lia|].
  apply (while_loop_more_fuel _ _ (fuel `max` S (size DG))) in Hrun; [|lia].
  unfold get_predecessors in Hr. rewrite Hrun in Hr. by injection Hr as <-.
Qed.

Lemma get_predecessors_same_result `{Countable vertex} (DG : gmap vertex (list vertex))
    node fuel fuel' r r' :
  get_predecessors fuel node DG = Some r →
  get_predecessors fuel' node DG = Some r' →
  r' = r.
Proof.
  intros Hr Hr'.
  apply (while_loop_more_fuel _ _ (fuel `max` fuel')) in Hr; [|lia].
  apply (while_loop_more_fuel _ _ (fuel `max` fuel')) in Hr'; [|lia].
  congruence.
Qed.

(** C8: on a graph that contains the start node and the predecessors it
    lists, the closure is returned; it contains the start node, contains no
    node twice, and is the set of nodes from which the start node is reached
    along edges; every call from the same start node on the same graph
    returns the same list, and on a graph with the same edges listed in
    another order the same set. *)
Theorem predecessor_closure_is_a_set `{Countable vertex} (DG : gmap vertex (list vertex))
    node fuel :
  well_formed DG → is_Some (DG !! node) → (size DG < fuel)%nat →
  ∃ visited,
    get_predecessors fuel node DG = Some (Ok visited)
    ∧ node ∈ visited
    ∧ NoDup visited
    ∧ (∀ x, x ∈ visited ↔ ancestor DG node x)
    ∧ (∀ fuel' r, get_predecessors fuel' node DG = Some r → r = Ok visited)
    ∧ (∀ DG' fuel' visited',
         same_edges DG DG' →
         get_predecessors fuel' node DG' = Some (Ok visited') →
         ∀ x, x ∈ visited' ↔ x ∈ visited).
Proof.
  intros Hwf Hnode Hfuel.
  destruct (get_predecessors_ends DG node fuel Hfuel) as ([visited|e] & Hrun & Hspec).
  - exists visited. destruct Hspec as (Hdup & Hin & Hanc & _).
    split; [done|]. split; [done|]. split; [done|]. split; [done|]. split.
    + intros fuel' r Hr. by eapply get_predecessors_same_result.
    + intros DG' fuel' visited' Hsame Hrun' x.
      destruct (get_predecessors_Ok _ _ _ _ Hrun') as (_ & _ & Hanc' & _).
      rewrite Hanc, Hanc'. split; apply ancestor_same_edges; [|done].
      intros y c. symmetry. apply Hsame.
  - destruct Hspec as (_ & x & Hx & Hnone).
    apply (ancestor_in_graph _ _ _ Hwf Hnode) in Hx. rewrite Hnone in Hx. by destruct Hx.
Qed.

Lemma predecessor_closure_is_a_set_witness :
  ∃ visited, get_predecessors 5 0 cyclic_graph = Some (Ok visited)
             ∧ 0 ∈ visited ∧ NoDup visited.
Proof.
  assert (Hwf : well_formed cyclic_graph) by (apply (bool_decide_unpack _); vm_compute; exact I).
  assert (Hnode : is_Some (cyclic_graph !! 0)) by (vm_compute; eauto).
  assert (Hfuel : (size cyclic_graph < 5)%nat) by (vm_compute; lia).
  destruct (predecessor_closure_is_a_set cyclic_graph 0 5 Hwf Hnode Hfuel)
    as (visited & Hrun & Hin & Hdup & _).
  exists visited. exact (conj Hrun (conj Hin Hdup)).
Defined.

(** C9: with fuel for one iteration more than the graph has nodes the
    [while] loop ends, cycles or not; on a graph that contains the start
    node and the predecessors it lists, it ends by returning [visited], in
    which no node occurs twice: a node is put on the queue when it is added
    to [visited], so at most once. *)
Theorem predecessor_closure_terminates `{Countable vertex}
    (DG : gmap vertex (list vertex)) node fuel :
  (size DG < fuel)%nat →
  (∃ r, get_predecessors fuel node DG = Some r)
  ∧ (well_formed DG → is_Some (DG !! node) →
     ∃ visited, get_predecessors fuel node DG = Some (Ok visited)
                ∧ NoDup visited ∧ (length visited ≤ size DG)%nat).
Proof.
  intros Hfuel. destruct (get_predecessors_ends DG node fuel Hfuel) as (r & Hr & Hspec).
  split; [eauto|]. intros Hwf Hnode. destruct r as [visited|e].
  - exists visited. destruct Hspec as (Hdup & _ & _ & Hgraph).
    split; [done|]. split; [done|]. by apply length_processed.
  - destruct Hspec as (_ & x & Hx & Hnone).
    apply (ancestor_in_graph _ _ _ Hwf Hnode) in Hx. rewrite Hnone in Hx. by destruct Hx.
Qed.

Lemma predecessor_closure_terminates_witness :
  ∃ r, get_predecessors 5 0 cyclic_graph = Some r.
Proof.
  assert (Hfuel : (size cyclic_graph < 5)%nat) by (vm_compute; lia).
  exact (proj1 (predecessor_closure_terminates cyclic_graph 0 5 Hfuel)).
Defined.

(** * Further properties of the extractor *)

Lemma CallVisitor_run_all_valid variable_names cs :
  Forall (λ c, ∃ fn args keywords, c = Call fn args keywords) cs →
  (∀ c, c ∈ cs → is_Some (known_callee variable_names c) →
        raise_error_if_incorrect_argument c = Ok tt) →
  ∀ calls, for_each (CallVisitor.visit_Call variable_names) cs calls
           = Ok (calls ++ omap (known_callee variable_names) cs).
Proof.
  induction 1 as [|c cs (fn & args & keywords & ->) _ IH]; intros Hvalid calls;
    cbn [for_each].
  - by rewrite app_nil_r.
  - rewrite omap_cons_eq.
    destruct (known_callee variable_names (Call fn args keywords)) as [id|] eqn:Hknown.
    + rewrite (CallVisitor_visit_Call_known _ _ _ _ Hknown).
      rewrite Hvalid; [|by left|by rewrite Hknown]. simpl.
      rewrite IH by (intros c Hc; apply Hvalid; by right).
      by rewrite <- app_assoc.
    + rewrite (CallVisitor_visit_Call_unknown _ _ _ _ _ Hknown). simpl.
      apply IH. intros c Hc. apply Hvalid. by right.
Qed.

(** When the validator accepts every dispatched call of a known variable,
    [get_calls] returns: the objects of the known callees other than the
    variable itself, one per call, in call order. *)
Theorem extractor_succeeds_when_all_valid variable variables :
  (∀ c, c ∈ dispatched_calls (func variable) →
        is_Some (known_callee (name <$> variables) c) →
        raise_error_if_incorrect_argument c = Ok tt) →
  get_calls variable variables
  = Ok (get_object_by_name variables <$>
          filter (λ call_name, call_name ≠ name variable)
            (omap (known_callee (name <$> variables))
                  (dispatched_calls (func variable)))).
Proof.
  intros Hvalid. rewrite get_calls_unfold.
  rewrite CallVisitor_run_all_valid; [done|apply dispatched_calls_Forall|done].
Qed.

Lemma extractor_succeeds_when_all_valid_witness :
  get_calls endowment.net_single_premium endowment.variables
  = Ok (get_object_by_name endowment.variables <$>
          filter (λ call_name, call_name ≠ name endowment.net_single_premium)
            (omap (known_callee (name <$> endowment.variables))
                  (dispatched_calls (func endowment.net_single_premium)))).
Proof.
  apply extractor_succeeds_when_all_valid.
  intros c Hc Hsome. vm_compute in Hc.
  apply elem_of_cons in Hc as [->|Hc]; [reflexivity|].
  apply elem_of_cons in Hc as [->|Hc]; [reflexivity|].
  apply elem_of_cons in Hc as [->|Hc]; [vm_compute in Hsome; by destruct Hsome|].
  by apply elem_of_nil in Hc.
Defined.

(** A formula that dispatches no call of a known variable has no references
    and raises nothing, whatever else it calls. *)
Theorem extractor_without_known_calls variable variables :
  (∀ c, c ∈ dispatched_calls (func variable) →
        known_callee (name <$> variables) c = None) →
  get_calls variable variables = Ok [].
Proof.
  intros Hnone. rewrite extractor_succeeds_when_all_valid.
  - replace (omap _ _) with (@nil string); [done|].
    induction (dispatched_calls (func variable)) as [|c cs IH]; [done|].
    rewrite omap_cons_eq, Hnone by (by left). apply IH. intros c' Hc'. apply Hnone. by right.
  - intros c Hc Hsome. rewrite (Hnone c Hc) in Hsome. by destruct Hsome.
Qed.

Lemma extractor_without_known_calls_witness :
  get_calls g_variable [g_variable; f_variable] = Ok [].
Proof.
  apply extractor_without_known_calls.
  intros c Hc. vm_compute in Hc.
  apply list_elem_of_singleton in Hc as ->. reflexivity.
Defined.

(** ** Formulas without a call below a call *)

Lemma has_call_false_all_calls node :
  has_call node = false → all_calls node = [].
Proof.
  induction node as [id|value|lhs op rhs IHl IHr|fn args keywords _ _ _|cls children IH]
    using AST_nested_ind; simpl; try done.
  - intros [Hl Hr]%orb_false_iff. by rewrite IHl, IHr.
  - induction IH as [|child l Hchild _ IHl]; [done|].
    intros [Hc Hl]%orb_false_iff. by rewrite Hchild, IHl.
Qed.

Lemma forallb_no_call_all_calls (l : list AST) :
  forallb (λ x, negb (has_call x)) l = true →
  (fix go (l : list AST) : list AST :=
     match l with
     | [] => []
     | child :: l' => all_calls child ++ go l'
     end) l = [].
Proof.
  induction l as [|x l IH]; [done|]. simpl.
  intros [Hx Hl]%andb_true_iff. apply negb_true_iff in Hx.
  by rewrite (has_call_false_all_calls x Hx), IH.
Qed.

Lemma dispatched_calls_all_calls node :
  no_call_below_call node = true → dispatched_calls node = all_calls node.
Proof.
  induction node as [id|value|lhs op rhs IHl IHr|fn args keywords _ _ _|cls children IH]
    using AST_nested_ind; simpl; try done.
  - intros [Hl Hr]%andb_true_iff. by rewrite IHl, IHr.
  - intros [[Hfn Hargs]%andb_true_iff Hkws]%andb_true_iff.
    apply negb_true_iff in Hfn.
    by rewrite (has_call_false_all_calls fn Hfn),
      (forallb_no_call_all_calls args Hargs), (forallb_no_call_all_calls keywords Hkws).
  - induction IH as [|child l Hchild _ IHl]; [done|].
    intros [Hc Hl]%andb_true_iff. by rewrite Hchild, IHl.
Qed.

(** In a formula where no call contains another call, the traversal hands
    every call of the tree to [visit_Call]: the extractor's result is that of
    its handler run over all the calls of the tree, in pre-order. *)
Theorem traversal_reaches_every_unnested_call variable_names formula calls :
  no_call_below_call formula = true →
  CallVisitor.visit variable_names formula calls
  = for_each (CallVisitor.visit_Call variable_names) (all_calls formula) calls.
Proof.
  intros Hflat. unfold CallVisitor.visit.
  by rewrite visit_dispatched_calls, dispatched_calls_all_calls.
Qed.

Lemma traversal_reaches_every_unnested_call_witness :
  CallVisitor.visit ["survival_rate"] endowment._expected_benefit []
  = for_each (CallVisitor.visit_Call ["survival_rate"])
      (all_calls endowment._expected_benefit) [].
Proof.
  apply traversal_reaches_every_unnested_call. vm_compute. reflexivity.
Defined.

(** * Further properties of the classifier *)

(** The handler leaves the running direction as it is or sets one of the two
    directions. *)
Lemma CalcDirectionVisitor_visit_Call_values variable_names d d' c :
  CalcDirectionVisitor.visit_Call variable_names d c = Ok d' →
  d' = d ∨ d' = "backward" ∨ d' = "forward".
Proof.
  unfold CalcDirectionVisitor.visit_Call.
  destruct c as [| | |fn args keywords|]; try done.
  destruct fn as [id| | | |]; try (intros [= <-]; by left).
  case_bool_decide; [|intros [= <-]; by left].
  destruct args as [|arg args]; [done|].
  destruct arg as [| |lhs op rhs| |]; try (intros [= <-]; by left).
  destruct (is_Name_t lhs), op; simpl; intros [= <-]; auto.
Qed.

Lemma CalcDirectionVisitor_visit_closed (P : string → Prop) variable_names formula d d' :
  P "backward" → P "forward" → P d →
  CalcDirectionVisitor.visit variable_names formula d = Ok d' → P d'.
Proof.
  intros Hb Hf. unfold CalcDirectionVisitor.visit. rewrite visit_dispatched_calls.
  revert d. induction (dispatched_calls formula) as [|c cs IH]; intros d Hd; cbn [for_each].
  - by intros [= <-].
  - intros (d1 & Hstep & Hrest)%bind_Ok_inv. apply (IH d1); [|done].
    apply CalcDirectionVisitor_visit_Call_values in Hstep as [-> | [-> | ->]]; done.
Qed.

Lemma classify_closed (P : string → Prop) variable_names variables :
  P "backward" → P "forward" →
  ∀ d assigned, P d →
    classify variable_names d variables = Ok assigned →
    Forall (λ v, P (calc_direction v)) assigned.
Proof.
  intros Hb Hf. induction variables as [|v variables IH]; intros d assigned Hd; simpl.
  - intros [= <-]. constructor.
  - intros (d0 & Hvisit & (rest & Hrest & [= <-])%bind_Ok_inv)%bind_Ok_inv.
    assert (P d0) by (by eapply CalcDirectionVisitor_visit_closed).
    constructor; [done|]. by eapply IH.
Qed.

(** Every direction that classification assigns is ["irrelevant"],
    ["backward"] or ["forward"]. *)
Theorem assigned_direction_is_one_of_three variables assigned v :
  get_calc_direction variables = Ok assigned →
  v ∈ assigned →
  calc_direction v = "irrelevant" ∨ calc_direction v = "backward"
  ∨ calc_direction v = "forward".
Proof.
  intros Hrun Hv.
  eapply (classify_closed (λ d, d = "irrelevant" ∨ d = "backward" ∨ d = "forward"))
    in Hrun; [|auto..].
  rewrite Forall_forall in Hrun. by apply Hrun.
Qed.

Lemma assigned_direction_is_one_of_three_witness :
  calc_direction (set_calc_direction endowment.net_single_premium "backward") = "irrelevant"
  ∨ calc_direction (set_calc_direction endowment.net_single_premium "backward") = "backward"
  ∨ calc_direction (set_calc_direction endowment.net_single_premium "backward") = "forward".
Proof.
  apply (assigned_direction_is_one_of_three endowment.variables
           [set_calc_direction endowment.survival_rate "forward";
            set_calc_direction endowment.expected_benefit "forward";
            set_calc_direction endowment.net_single_premium "backward"]).
  - reflexivity.
  - apply list_elem_of_further, list_elem_of_further, list_elem_of_here.
Defined.

(** Once a member has been assigned a direction other than ["irrelevant"],
    no later member of the group is assigned ["irrelevant"]. *)
Theorem direction_never_returns_to_irrelevant variables assigned (i j : nat) vi vj :
  get_calc_direction variables = Ok assigned →
  (i ≤ j)%nat →
  assigned !! i = Some vi → assigned !! j = Some vj →
  calc_direction vi ≠ "irrelevant" →
  calc_direction vj ≠ "irrelevant".
Proof.
  unfold get_calc_direction. generalize (name <$> variables) as names.
  generalize CalcDirectionVisitor.init as d. intros d names. revert d assigned i j.
  induction variables as [|v variables IH]; intros d assigned i j; simpl.
  - intros [= <-]. by rewrite lookup_nil.
  - intros (d0 & Hvisit & (rest & Hrest & [= <-])%bind_Ok_inv)%bind_Ok_inv Hle.
    destruct i as [|i], j as [|j]; simpl; try lia.
    + by intros [= <-] [= <-].
    + intros [= <-] Hj Hd0. simpl in Hd0.
      eapply (classify_closed (λ d, d ≠ "irrelevant")) in Hrest; [|done..].
      rewrite Forall_forall in Hrest. apply Hrest. by eapply list_elem_of_lookup_2.
    + apply (IH d0 rest i j Hrest). lia.
Qed.

Lemma direction_never_returns_to_irrelevant_witness :
  calc_direction (set_calc_direction b_variable "forward") ≠ "irrelevant".
Proof.
  apply (direction_never_returns_to_irrelevant [a_variable; b_variable]
           [set_calc_direction a_variable "forward"; set_calc_direction b_variable "forward"]
           0 1 (set_calc_direction a_variable "forward")
           (set_calc_direction b_variable "forward")).
  - reflexivity.
  - lia.
  - reflexivity.
  - reflexivity.
  - simpl. discriminate.
Defined.

(** Classification writes [calc_direction] only: names and formulas are
    those of the input, in the same order. *)
Theorem classification_keeps_names_and_formulas variables assigned :
  get_calc_direction variables = Ok assigned →
  name <$> assigned = name <$> variables ∧ func <$> assigned = func <$> variables.
Proof.
  unfold get_calc_direction. generalize (name <$> variables) at 1 as names.
  generalize CalcDirectionVisitor.init as d. intros d names. revert d assigned.
  induction variables as [|v variables IH]; intros d assigned; simpl.
  - by intros [= <-].
  - intros (d0 & Hvisit & (rest & Hrest & [= <-])%bind_Ok_inv)%bind_Ok_inv.
    destruct (IH _ _ Hrest) as [Hn Hf]. by rewrite !fmap_cons, Hn, Hf.
Qed.

Lemma classification_keeps_names_and_formulas_witness :
  name <$> [set_calc_direction a_variable "forward"; set_calc_direction b_variable "forward"]
  = name <$> [a_variable; b_variable].
Proof.
  exact (proj1 (classification_keeps_names_and_formulas [a_variable; b_variable]
                  [set_calc_direction a_variable "forward";
                   set_calc_direction b_variable "forward"] eq_refl)).
Defined.




(** Within one formula the last time-shifted call of a group member
    decides: whatever the direction before the formula and whatever the
    earlier calls set, the direction after it is that of this call's
    operator. *)
Theorem last_time_shift_decides variable_names formula d d'
    pre id op rhs rest keywords post :
  dispatched_calls formula
  = pre ++ Call (Name id) (BinOp (Name "t") op rhs :: rest) keywords :: post →
  id ∈ variable_names →
  isinstance_Add op || isinstance_Sub op = true →
  (∀ c, c ∈ post → known_shifted_call variable_names c = false) →
  CalcDirectionVisitor.visit variable_names formula d = Ok d' →
  d' = direction_of_shift op.
Proof.
  intros Hsplit Hid Hop Hpost. unfold CalcDirectionVisitor.visit.
  rewrite visit_dispatched_calls.
  pose proof (dispatched_calls_Forall formula) as Hcalls. rewrite Hsplit in Hcalls |- *.
  apply Forall_app in Hcalls as [_ Hcalls]. apply Forall_cons in Hcalls as [_ Hcalls].
  rewrite for_each_app. intros (d1 & _ & Hrun)%bind_Ok_inv. cbn [for_each] in Hrun.
  apply bind_Ok_inv in Hrun as (d2 & Hstep & Hrest).
  apply CalcDirectionVisitor_run_unchanged in Hrest as ->; [|done..].
  unfold CalcDirectionVisitor.visit_Call in Hstep.
  rewrite bool_decide_eq_true_2 in Hstep by done.
  unfold direction_of_shift. by destruct op; simpl in *; try done; injection Hstep as <-.
Qed.

Lemma last_time_shift_decides_witness :
  "backward" = direction_of_shift Add.
Proof.
  apply (last_time_shift_decides ["p"; "q"] p_formula "irrelevant" "backward"
           [call1 "p" (BinOp t_ Sub (int_ 1))] "q" Add (int_ 1) [] [] [call1 "q" t_]).
  - reflexivity.
  - apply list_elem_of_further, list_elem_of_here.
  - reflexivity.
  - intros c ->%list_elem_of_singleton. reflexivity.
  - reflexivity.
Defined.

Lemma CalcDirectionVisitor_visit_without_shift variable_names formula d :
  (∀ c, c ∈ dispatched_calls formula →
        known_shifted_call variable_names c = false
        ∧ known_call_without_argument variable_names c = false) →
  CalcDirectionVisitor.visit variable_names formula d = Ok d.
Proof.
  intros Hno.
  destruct (CalcDirectionVisitor.visit variable_names formula d) as [d'|e] eqn:Hvisit.
  - unfold CalcDirectionVisitor.visit in Hvisit. rewrite visit_dispatched_calls in Hvisit.
    apply CalcDirectionVisitor_run_unchanged in Hvisit as ->;
      [done|apply dispatched_calls_Forall|].
    intros c Hc. by apply Hno.
  - apply CalcDirectionVisitor_visit_Raise in Hvisit as (_ & c & Hc & Hzero).
    destruct (Hno c Hc) as [_ Hzero']. congruence.
Qed.

(** A group whose formulas dispatch no time-shifted call of a group member,
    and no call of a group member without argument, is classified
    ["irrelevant"] throughout; calls with argument [t] or a constant do not
    count. *)
Theorem group_without_time_shift_is_irrelevant variables :
  (∀ v c, v ∈ variables → c ∈ dispatched_calls (func v) →
          known_shifted_call (name <$> variables) c = false
          ∧ known_call_without_argument (name <$> variables) c = false) →
  get_calc_direction variables
  = Ok ((λ v, set_calc_direction v "irrelevant") <$> variables).
Proof.
  unfold get_calc_direction, CalcDirectionVisitor.init.
  generalize (name <$> variables) as names. intros names.
  induction variables as [|v variables IH]; intros Hno; simpl; [done|].
  rewrite CalcDirectionVisitor_visit_without_shift
    by (intros c Hc; apply (Hno v c); [by left|done]).
  simpl. rewrite IH; [done|]. intros w c Hw. apply Hno. by right.
Qed.

Lemma group_without_time_shift_is_irrelevant_witness :
  get_calc_direction [h_variable; b_variable]
  = Ok ((λ v, set_calc_direction v "irrelevant") <$> [h_variable; b_variable]).
Proof.
  apply group_without_time_shift_is_irrelevant.
  intros v c Hv Hc.
  apply elem_of_cons in Hv as [->|Hv].
  - vm_compute in Hc. apply list_elem_of_singleton in Hc as ->. by vm_compute.
  - apply list_elem_of_singleton in Hv as ->.
    vm_compute in Hc. apply list_elem_of_singleton in Hc as ->. by vm_compute.
Defined.

Lemma known_call_without_argument_rejected variable_names variable_names' c :
  known_call_without_argument variable_names c = true →
  variable_names ⊆ variable_names' →
  ∃ id, known_callee variable_names' c = Some id
        ∧ raise_error_if_incorrect_argument c = Raise (CashflowModelError (arity_msg id)).
Proof.
  destruct c as [| | |fn args keywords|]; try done.
  destruct fn as [id| | | |]; try done.
  destruct args as [|arg args]; [|done]. simpl.
  intros Hid%bool_decide_eq_true Hsub. exists id.
  by rewrite bool_decide_eq_true_2 by (by apply Hsub).
Qed.

(** The two analyses compose: when [get_calls] has accepted the formula of
    every member of a group, against names that include the group's,
    [get_calc_direction] does not fail on the group. *)
Theorem validated_group_is_classified group variables :
  name <$> group ⊆ name <$> variables →
  (∀ v, v ∈ group → ∃ calls, get_calls v variables = Ok calls) →
  ∃ assigned, get_calc_direction group = Ok assigned.
Proof.
  intros Hsub Hvalid.
  destruct (get_calc_direction group) as [assigned|e] eqn:Hrun; [eauto|].
  apply classify_Raise in Hrun as (_ & v & c & Hv & Hc & Hzero).
  destruct (known_call_without_argument_rejected _ _ _ Hzero Hsub) as (id & Hknown & Hraise).
  destruct (Hvalid v Hv) as [calls Hcalls].
  rewrite get_calls_unfold in Hcalls.
  apply bind_Ok_inv in Hcalls as (call_names & Hvisit & _).
  apply CallVisitor_run_Ok in Hvisit as [_ Hok]; [|apply dispatched_calls_Forall].
  rewrite Hok in Hraise; [done|done|by rewrite Hknown].
Qed.

Lemma validated_group_is_classified_witness :
  ∃ assigned,
    get_calc_direction [endowment.survival_rate; endowment.expected_benefit]
    = Ok assigned.
Proof.
  apply (validated_group_is_classified
           [endowment.survival_rate; endowment.expected_benefit] endowment.variables).
  - intros x Hx. apply elem_of_cons in Hx as [->|Hx]; [apply list_elem_of_here|].
    apply list_elem_of_singleton in Hx as ->.
    apply list_elem_of_further, list_elem_of_here.
  - intros v Hv. apply elem_of_cons in Hv as [->|Hv]; [by eexists|].
    apply list_elem_of_singleton in Hv as ->. by eexists.
Defined.

(** * Further properties of the predecessor closure *)

Section get_predecessors_further.
Context `{Countable vertex}.
Implicit Types DG : gmap vertex (list vertex).

(** The loop only ever adds to the back of [visited]. *)
Lemma while_loop_extends DG fuel :
  ∀ queue visited result,
    while_loop fuel DG queue visited = Some (Ok result) → visited `prefix_of` result.
Proof.
  induction fuel as [|fuel IH]; intros queue visited result.
  - destruct queue; [|done]. by intros [= <-].
  - destruct queue as [|node queue]; [by intros [= <-]|]. simpl.
    destruct (predecessors DG node) as [children|e]; [|done].
    destruct (for_loop_appends children queue visited) as (fresh & -> & _).
    intros Hrun%IH. etrans; [|exact Hrun]. by apply prefix_app_r.
Qed.

End get_predecessors_further.

Lemma get_predecessors_returns `{Countable vertex} (DG : gmap vertex (list vertex))
    node fuel :
  well_formed DG → is_Some (DG !! node) → (size DG < fuel)%nat →
  ∃ visited, get_predecessors fuel node DG = Some (Ok visited).
Proof.
  intros Hwf Hnode Hfuel.
  destruct (get_predecessors_ends DG node fuel Hfuel) as ([visited|e] & Hrun & Hspec);
    [eauto|].
  destruct Hspec as (_ & x & Hx & Hnone).
  apply (ancestor_in_graph _ _ _ Hwf Hnode) in Hx. rewrite Hnone in Hx. by destruct Hx.
Qed.

Lemma cyclic_graph_well_formed : well_formed cyclic_graph.
Proof. apply (bool_decide_unpack _). vm_compute. exact I. Qed.

(** On a graph that contains the start node and the predecessors it lists,
    the closure is returned and lists the start node first. *)
Theorem closure_starts_with_start_node `{Countable vertex}
    (DG : gmap vertex (list vertex)) node fuel :
  well_formed DG → is_Some (DG !! node) → (size DG < fuel)%nat →
  ∃ others, get_predecessors fuel node DG = Some (Ok (node :: others)).
Proof.
  intros Hwf Hnode Hfuel.
  destruct (get_predecessors_returns DG node fuel Hwf Hnode Hfuel) as [visited Hrun].
  destruct (while_loop_extends _ _ _ _ _ Hrun) as [others ->]. by exists others.
Qed.

Lemma closure_starts_with_start_node_witness :
  ∃ others, get_predecessors 5 1 cyclic_graph = Some (Ok (1 :: others)).
Proof.
  apply closure_starts_with_start_node.
  - exact cyclic_graph_well_formed.
  - vm_compute. eauto.
  - vm_compute. lia.
Defined.

(** With fuel for one iteration more than the graph has nodes, the closure
    raises [NetworkXError] exactly when the start node, or a node reached
    from it along edges taken backwards, is not a node of the graph. *)
Theorem closure_raises_iff_ancestor_missing `{Countable vertex}
    (DG : gmap vertex (list vertex)) node fuel :
  (size DG < fuel)%nat →
  get_predecessors fuel node DG = Some (Raise NetworkXError)
  ↔ ∃ x, ancestor DG node x ∧ DG !! x = None.
Proof.
  intros Hfuel.
  destruct (get_predecessors_ends DG node fuel Hfuel) as ([visited|e] & Hrun & Hspec).
  - destruct Hspec as (_ & _ & Hanc & Hgraph). rewrite Hrun. split; [done|].
    intros (x & Hx & Hnone). apply Hanc, Hgraph in Hx. rewrite Hnone in Hx. by destruct Hx.
  - destruct Hspec as (-> & Hmissing). by rewrite Hrun.
Qed.

Lemma closure_raises_iff_ancestor_missing_witness :
  get_predecessors 2 0 dangling_graph = Some (Raise NetworkXError)
  ↔ ∃ x, ancestor dangling_graph 0 x ∧ dangling_graph !! x = None.
Proof.
  apply closure_raises_iff_ancestor_missing. vm_compute. lia.
Defined.





(** * The validator and the two visitors together *)

Lemma CallVisitor_run_Raise_inv variable_names cs :
  Forall (λ c, ∃ fn args keywords, c = Call fn args keywords) cs →
  ∀ calls e, for_each (CallVisitor.visit_Call variable_names) cs calls = Raise e →
    ∃ c id, c ∈ cs ∧ known_callee variable_names c = Some id
            ∧ raise_error_if_incorrect_argument c = Raise e.
Proof.
  induction 1 as [|c cs (fn & args & keywords & ->) _ IH]; intros calls e;
    cbn [for_each]; [done|].
  destruct (known_callee variable_names (Call fn args keywords)) as [id|] eqn:Hknown.
  - rewrite (CallVisitor_visit_Call_known _ _ _ _ Hknown).
    destruct (raise_error_if_incorrect_argument (Call fn args keywords)) as [[]|e'] eqn:Hval;
      simpl.
    + intros (c & id' & Hc & Hknown' & Hraise)%IH. exists c, id'. split; [by right|done].
    + intros [= ->]. exists (Call fn args keywords), id. split; [by left|done].
  - rewrite (CallVisitor_visit_Call_unknown _ _ _ _ _ Hknown). simpl.
    intros (c & id' & Hc & Hknown' & Hraise)%IH. exists c, id'. split; [by right|done].
Qed.

Lemma messages_quote_the_callee id :
  (∃ before after, arity_msg id = before +:+ "'" +:+ id +:+ "'" +:+ after)
  ∧ (∃ before after, shape_msg id = before +:+ "'" +:+ id +:+ "'" +:+ after).
Proof.
  split.
  - by exists "Model variable must have one argument. Please review the call of ", ".".
  - exists (newline +:+ "Please review "),
      (". The argument of a model variable can be only:" +:+ newline
       +:+ "- t," +:+ newline
       +:+ "- t plus/minus integer (e.g. t+1 or t-12)," +:+ newline
       +:+ "- an integer (e.g. 0 or 12).").
    reflexivity.
Qed.

(** Given the tree of a formula, the extractor's traversal (line 30) raises
    in one way only: with the validator's [CashflowModelError] for a
    dispatched call of a known variable, and the message contains that
    callee's name between quotes. *)
Theorem traversal_error_is_validators variable_names formula calls e :
  CallVisitor.visit variable_names formula calls = Raise e →
  ∃ c id msg,
    c ∈ dispatched_calls formula
    ∧ known_callee variable_names c = Some id
    ∧ raise_error_if_incorrect_argument c = Raise e
    ∧ e = CashflowModelError msg
    ∧ (msg = arity_msg id ∨ msg = shape_msg id)
    ∧ ∃ before after, msg = before +:+ "'" +:+ id +:+ "'" +:+ after.
Proof.
  unfold CallVisitor.visit. rewrite visit_dispatched_calls. intros Hrun.
  apply CallVisitor_run_Raise_inv in Hrun as (c & id & Hc & Hknown & Hraise);
    [|apply dispatched_calls_Forall].
  destruct (messages_quote_the_callee id) as [Harity Hshape].
  destruct (validator_error_names_callee _ _ _ _ Hknown Hraise) as [-> | ->].
  - exists c, id, (arity_msg id). repeat split; auto.
  - exists c, id, (shape_msg id). repeat split; auto.
Qed.

Lemma traversal_error_is_validators_witness :
  ∃ c id msg,
    c ∈ dispatched_calls bad_formula
    ∧ known_callee ["bad"; "f"] c = Some id
    ∧ raise_error_if_incorrect_argument c = Raise (CashflowModelError (arity_msg "f"))
    ∧ CashflowModelError (arity_msg "f") = CashflowModelError msg
    ∧ (msg = arity_msg id ∨ msg = shape_msg id)
    ∧ ∃ before after, msg = before +:+ "'" +:+ id +:+ "'" +:+ after.
Proof.
  exact (traversal_error_is_validators ["bad"; "f"] bad_formula []
           (CashflowModelError (arity_msg "f")) eq_refl).
Defined.

(** On a call that the validator accepts, the classifier's handler does not
    fail and the outcome follows from the argument's shape: [t] and constants
    leave the running direction as it is, [t + k] sets ["backward"] and
    [t - k] sets ["forward"]. *)
Theorem accepted_call_direction variable_names d id args keywords :
  raise_error_if_incorrect_argument (Call (Name id) args keywords) = Ok tt →
  id ∈ variable_names →
  CalcDirectionVisitor.visit_Call variable_names d (Call (Name id) args keywords)
  = Ok match args with
       | [BinOp _ op _] => direction_of_shift op
       | _ => d
       end.
Proof.
  rewrite validator_on_named_call. intros Hvalid Hid.
  unfold CalcDirectionVisitor.visit_Call. rewrite bool_decide_eq_true_2 by done.
  destruct args as [|arg [|arg' args]]; try done.
  destruct (permitted_shape arg) eqn:Hshape; [|done].
  destruct arg as [| |lhs op rhs| |]; try done.
  unfold permitted_shape, shape_over in Hshape.
  apply andb_true_iff in Hshape as [[-> Hop]%andb_true_iff _].
  unfold direction_of_shift. by destruct op.
Qed.

Lemma accepted_call_direction_witness :
  CalcDirectionVisitor.visit_Call ["f"] "irrelevant" (call1 "f" (BinOp t_ Sub (int_ 12)))
  = Ok (direction_of_shift Sub).
Proof.
  apply (accepted_call_direction ["f"] "irrelevant" "f" [BinOp t_ Sub (int_ 12)] []).
  - reflexivity.
  - apply list_elem_of_here.
Defined.
